(** * Secret Santa server: the assignment generator and the draw handler

    A shallow embedding of [server.js].  JavaScript objects used as
    dictionaries ([mapping], [exclusions], [state.revealed]) are finite maps
    with string keys, arrays are lists, [Set]s are finite sets.  Reading a
    missing property gives [undefined], which is [None] here.

    Participant names are taken not to collide with the members that every
    JavaScript object inherits from [Object.prototype] (such as
    [constructor]); for such keys a property read does not behave like a
    dictionary lookup.  [plainNames] states this of a roster, and
    [bannedSetJs] gives what the generator reads for the other names.

    A request handler is suspended while the state is saved.
    [handleDraw] and [handleReset] give the handling of a request during
    which no other request is handled; [drawBegin], [drawEnd], [resetBegin]
    and [resetEnd] give the parts before and after the save, between which
    other requests may change the state. *)

From stdpp Require Import gmap strings list fin_maps fin_sets sorting.

Set Warnings "-clear-no-such-hyp".

Open Scope string_scope.

(** ** JavaScript values of the generator *)

(** Truthiness of a value that is a string or [undefined]: [undefined] and the
    empty string are falsy. *)
Definition truthy (v : option string) : bool :=
  match v with
  | Some s => negb (bool_decide (s = EmptyString))
  | None => false
  end.

(** [Set.prototype.has] on a value that may be [undefined]; the sets of the
    program hold strings only. *)
Definition has (s : gset string) (v : option string) : bool :=
  match v with
  | Some x => bool_decide (x ∈ s)
  | None => false
  end.

(** [new Set([giver, ...(exclusions[giver] || [])])] *)
Definition bannedSet (exclusions : gmap string (list string)) (giver : string)
  : gset string :=
  list_to_set (giver :: default [] (exclusions !! giver)).

(** [obj[k] = v] where [v] may be [undefined]: a property holding [undefined]
    reads like a missing one. *)
Definition assign (k : string) (v : option string) (obj : gmap string string)
  : gmap string string :=
  match v with
  | Some s => <[k:=s]> obj
  | None => delete k obj
  end.

(** [[arr[i], arr[j]] = [arr[j], arr[i]]]: the right-hand side is read first,
    then [arr[i]] and [arr[j]] are written in that order.  Every call site
    has both indices in range. *)
Definition swap (i j : nat) (arr : list string) : list string :=
  match arr !! i, arr !! j with
  | Some x, Some y => <[j:=x]> (<[i:=y]> arr)
  | _, _ => arr
  end.

(** ** validatePair *)

Definition validatePair (giver recv : string)
    (exclusions : gmap string (list string)) : bool :=
  if bool_decide (giver = recv) then false
  else negb (has (bannedSet exclusions giver) (Some recv)).

(** ** fixExclusions *)

Definition isBanned (exclusions : gmap string (list string))
    (giver : string) (recv : option string) : bool :=
  has (bannedSet exclusions giver) recv.

(** The inner loop over [j]: the first eligible counterpart is swapped with,
    and the loop is left ([Some] of the updated map); [None] when the loop
    runs to its end with [swapped] still false. *)
Fixpoint findSwap (exclusions : gmap string (list string)) (i : nat)
    (giver : string) (recv : option string) (map : gmap string string)
    (others : list (nat * string)) : option (gmap string string) :=
  match others with
  | [] => None
  | (j, other) :: rest =>
      if bool_decide (i = j) then findSwap exclusions i giver recv map rest
      else
        let otherRecv := map !! other in
        if bool_decide (other = giver) || bool_decide (otherRecv = Some giver)
        then findSwap exclusions i giver recv map rest
        else if negb (isBanned exclusions giver otherRecv)
                && negb (isBanned exclusions other recv)
                && negb (bool_decide (Some giver = otherRecv))
                && negb (bool_decide (Some other = recv))
        then Some (assign other recv (assign giver otherRecv map))
        else findSwap exclusions i giver recv map rest
  end.

(** The outer loop over [i]; the boolean is false when the function left by
    [if (!swapped) return false]. *)
Fixpoint repairLoop (exclusions : gmap string (list string))
    (names : list string) (todo : list (nat * string))
    (map : gmap string string) : bool * gmap string string :=
  match todo with
  | [] => (true, map)
  | (i, giver) :: rest =>
      let recv := map !! giver in
      if isBanned exclusions giver recv || bool_decide (Some giver = recv)
      then
        match findSwap exclusions i giver recv map (imap pair names) with
        | Some map' => repairLoop exclusions names rest map'
        | None => (false, map)
        end
      else repairLoop exclusions names rest map
  end.

(** [fixExclusions] updates [map] in place and returns a boolean; the caller
    goes on with the same object, so both are returned. *)
Definition fixExclusions (map : gmap string string) (names : list string)
    (exclusions : gmap string (list string)) : bool * gmap string string :=
  let '(swappedAll, map') := repairLoop exclusions names (imap pair names) map in
  if swappedAll
  then (forallb (fun name =>
                   truthy (map' !! name)
                   && negb (bool_decide (map' !! name = Some name))) names,
        map')
  else (false, map').

(** ** validateAssignments *)

(** The loop over the givers; [None] when the function returns false from
    inside the loop, otherwise the final [seenRecipients]. *)
Fixpoint validateLoop (mapping : gmap string string) (names : list string)
    (exclusions : gmap string (list string)) (givers : list string)
    (seenRecipients : gset string) : option (gset string) :=
  match givers with
  | [] => Some seenRecipients
  | giver :: rest =>
      let recv := mapping !! giver in
      match recv with
      | None => None
      | Some r =>
          if negb (truthy recv) || negb (bool_decide (r ∈ names)) then None
          else if bool_decide (giver = r) then None
          else if has (bannedSet exclusions giver) recv then None
          else if has seenRecipients recv then None
          else validateLoop mapping names exclusions rest
                 ({[r]} ∪ seenRecipients)
      end
  end.

Definition validateAssignments (mapping : gmap string string)
    (names : list string) (exclusions : gmap string (list string)) : bool :=
  match validateLoop mapping names exclusions names ∅ with
  | None => false
  | Some seenRecipients => bool_decide (size seenRecipients = length names)
  end.

(** ** One attempt of makeAssignments, after the shuffle *)

(** The first inner loop: a shuffled entry equal to the name at its position
    is swapped with the next entry, the last one with the first. *)
Definition unfixStep (names shuffled : list string) (i : nat) : list string :=
  if bool_decide (shuffled !! i = names !! i)
  then
    let j := if bool_decide (i = length names - 1) then 0 else i + 1 in
    swap i j shuffled
  else shuffled.

Definition unfix (names shuffled : list string) : list string :=
  foldl (unfixStep names) shuffled (seq 0 (length names)).

(** The second inner loop: positions are paired up and written to [mapping]
    until a pair fails [validatePair]; the boolean is the final [ok].
    [names] and [shuffled] have the same length, so the loop runs over the
    pairs of their entries. *)
Fixpoint pairUp (exclusions : gmap string (list string))
    (pairs : list (string * string)) (mapping : gmap string string)
  : gmap string string * bool :=
  match pairs with
  | [] => (mapping, true)
  | (giver, recv) :: rest =>
      let mapping := <[giver:=recv]> mapping in
      if validatePair giver recv exclusions
      then pairUp exclusions rest mapping
      else (mapping, false)
  end.

(** How the body of the attempt loop is left, with the mapping it holds. *)
Inductive Outcome :=
  | Discarded (mapping : gmap string string)
  | RepairFailed (mapping : gmap string string)
  | ValidationFailed (mapping : gmap string string)
  | Accepted (mapping : gmap string string).

Definition runAttempt (names : list string)
    (exclusions : gmap string (list string)) (shuffled : list string)
  : Outcome :=
  let shuffled := unfix names shuffled in
  let '(mapping, ok) := pairUp exclusions (zip names shuffled) ∅ in
  if negb ok then Discarded mapping
  else
    let '(fixed, mapping) := fixExclusions mapping names exclusions in
    if fixed
    then if validateAssignments mapping names exclusions
         then Accepted mapping
         else ValidationFailed mapping
    else RepairFailed mapping.

(** ** The random source, shuffle and makeAssignments *)

Inductive Result :=
  | Returned (mapping : gmap string string)
  | Thrown (message : string).

Definition couldNotBuild : string :=
  "Could not build assignments with the given exclusions.".

Definition MAX_ATTEMPTS : nat := 1000.

(** Computations that call [Math.random]: the state is the number of calls
    made so far. *)
Definition Rand (A : Type) : Type := nat → A * nat.

Definition ret {A} (a : A) : Rand A := fun calls => (a, calls).

Definition bind {A B} (c : Rand A) (k : A → Rand B) : Rand B :=
  fun calls => let '(a, calls') := c calls in k a calls'.

Notation "'let*' x ':=' c 'in' k" := (bind c (fun x => k))
  (at level 10, x name, c at level 100, k at level 200, only parsing).

Section Generator.

(** [Math.floor(Math.random() * n)] is, for a positive integer [n], some
    integer from 0 to [n - 1]; which one is up to the random source.  The
    source is the sequence of its draws, the call number [calls] picking
    index [random calls mod n]: every sequence of in-range indices is the
    behaviour of some source. *)
Variable random : nat → nat.

Definition randomBelow (n : nat) : Rand nat :=
  fun calls => (random calls `mod` n, S calls).

(** [for (let i = arr.length - 1; i > 0; i -= 1)] *)
Fixpoint shuffleFrom (i : nat) (arr : list string) : Rand (list string) :=
  match i with
  | 0 => ret arr
  | S i' =>
      let* j := randomBelow (S i' + 1) in
      shuffleFrom i' (swap (S i') j arr)
  end.

Definition shuffle (arr : list string) : Rand (list string) :=
  shuffleFrom (length arr - 1) arr.

(** [for (let attempt = 0; attempt < 1000; attempt += 1)]: [budget] is
    [1000 - attempt].  The result comes with the value of [attempt] when the
    function is left. *)
Fixpoint attemptLoop (names : list string)
    (exclusions : gmap string (list string)) (budget attempt : nat)
  : Rand (Result * nat) :=
  match budget with
  | 0 => ret (Thrown couldNotBuild, attempt)
  | S budget' =>
      let* shuffled := shuffle names in
      match runAttempt names exclusions shuffled with
      | Accepted mapping => ret (Returned mapping, attempt)
      | _ => attemptLoop names exclusions budget' (S attempt)
      end
  end.

Definition makeAssignmentsRun (names : list string)
    (exclusions : gmap string (list string)) : Rand (Result * nat) :=
  attemptLoop names exclusions MAX_ATTEMPTS 0.

Definition makeAssignments (names : list string)
    (exclusions : gmap string (list string)) : Result :=
  (makeAssignmentsRun names exclusions 0).1.1.

End Generator.

Definition PARTICIPANTS : list string :=
  ["Alice"; "Bob"; "Charlie"; "Danielle"; "Erin"; "Frank"].

Definition EXCLUSIONS : gmap string (list string) := ∅.

(** ** The state of the server *)

Record HistoryEntry := {
  entryGiver : string;
  entryRecipient : string;
  revealedAt : string
}.

(** The object held by the variable [state] once it is loaded. *)
Record State := {
  participants : list string;
  exclusions : gmap string (list string);
  assignments : gmap string string;
  revealed : gmap string bool;
  history : list HistoryEntry;
  createdAt : string
}.

(** [buildFreshState]; [now] is [new Date().toISOString()].  The exception of
    [makeAssignments] passes through. *)
Definition buildFreshState (random : nat → nat) (now : string)
  : State + string :=
  match makeAssignments random PARTICIPANTS EXCLUSIONS with
  | Returned mapping =>
      inl {| participants := PARTICIPANTS;
             exclusions := EXCLUSIONS;
             assignments := mapping;
             revealed := list_to_map ((λ name, (name, false)) <$> PARTICIPANTS);
             history := [];
             createdAt := now |}
  | Thrown message => inr message
  end.

(** A state file that passed [isValidState], as far as [normalizeState] looks
    at it.  A value of [revealed] is [Some b] for the boolean [b] and [None]
    for any other JSON value; a field that is missing or falsy is [None]. *)
Record RawState := {
  rawParticipants : list string;
  rawExclusions : option (gmap string (list string));
  rawAssignments : gmap string string;
  rawRevealed : gmap string (option bool);
  rawHistory : option (list HistoryEntry);
  rawCreatedAt : option string
}.

(** [if (typeof normalized.revealed[name] !== 'boolean')
      normalized.revealed[name] = false] *)
Definition defaultRevealed (flags : gmap string (option bool)) (name : string)
  : gmap string (option bool) :=
  match flags !! name with
  | Some (Some _) => flags
  | _ => <[name:=Some false]> flags
  end.

Definition normalizeState (rawState : RawState) (now : string) : State :=
  let names := rawParticipants rawState in
  let flags := foldl defaultRevealed (rawRevealed rawState) names in
  let flags := filter (λ kv, kv.1 ∈ names) flags in
  {| participants := names;
     exclusions := default ∅ (rawExclusions rawState);
     assignments := rawAssignments rawState;
     revealed := omap id flags;
     history := default [] (rawHistory rawState);
     createdAt := default now (rawCreatedAt rawState) |}.

(** [getAvailableGivers] *)
Definition getAvailableGivers (currentState : State) : list string :=
  filter (λ name, revealed currentState !! name ≠ Some true)
         (participants currentState).

(** ** The handler of /api/draw *)

(** The errors [readJson] rejects with, their [statusCode] and [message]. *)
Inductive ReadError :=
  | PayloadTooLarge
  | InvalidJsonPayload
  | RequestError (message : string).

Definition statusCodeOf (err : ReadError) : nat :=
  match err with
  | PayloadTooLarge => 413
  | InvalidJsonPayload => 400
  | RequestError _ => 400
  end.

Definition messageOf (err : ReadError) : string :=
  match err with
  | PayloadTooLarge => "Payload too large"
  | InvalidJsonPayload => "Invalid JSON payload"
  | RequestError message => message
  end.

(** What [readJson] settles to: a rejection, or the parsed body, of which
    the handler looks at its truthiness and at [body.giver] when that is a
    string. *)
Inductive ReadJson :=
  | Rejected (err : ReadError)
  | ResolvedFalsy
  | Resolved (giver : option string).

Inductive Payload :=
  | NoBody
  | ErrorJson (error : string)
  | DrawJson (giver recipient : string) (remaining total : nat).

(** A response: its status code and its body.  The field [takenRecipients] of
    the draw response, listed in the property order of [state.revealed], is
    left out. *)
Record Response := { status : nat; payload : Payload }.

Definition sendJson (statusCode : nat) (body : Payload) : Response :=
  {| status := statusCode; payload := body |}.

Definition quote : string := String (Ascii.ascii_of_nat 34) EmptyString.

Section Handler.

(** [String.prototype.trim] *)
Variable trim : string → string.

(** [handleRequest] on the path /api/draw, with [state] loaded.  [now] is the
    time of the request and [saveOk] tells whether [saveState] succeeds.  The
    result is the state after the request and the response sent, if any. *)
Definition handleDraw (state : State) (method : string) (body : ReadJson)
    (now : string) (saveOk : bool) : State * option Response :=
  if bool_decide (method = "OPTIONS")
  then (state, Some (sendJson 204 NoBody))
  else if negb (bool_decide (method = "POST"))
  then (state,
        Some (sendJson 405 (ErrorJson "Method not allowed. Use POST.")))
  else
    match body with
    | Rejected err =>
        (state,
         Some (sendJson (if bool_decide (statusCodeOf err = 0) then 400
                         else statusCodeOf err)
                 (ErrorJson (if bool_decide (messageOf err = EmptyString)
                             then "Invalid request body"
                             else messageOf err))))
    | ResolvedFalsy => (state, None)
    | Resolved field =>
        let giver := match field with
                     | Some s => trim s
                     | None => EmptyString
                     end in
        if bool_decide (giver = EmptyString)
        then (state,
              Some (sendJson 400
                      (ErrorJson ("Missing or invalid " +:+ quote +:+ "giver"
                                  +:+ quote +:+ " name."))))
        else if negb (bool_decide (giver ∈ participants state))
        then (state,
              Some (sendJson 404
                      (ErrorJson "That name is not in the participant list.")))
        else if bool_decide (revealed state !! giver = Some true)
        then (state,
              Some (sendJson 409
                      (ErrorJson "That person already drew a name.")))
        else
          match assignments state !! giver with
          | None =>
              (state,
               Some (sendJson 500
                       (ErrorJson
                          "No assignment found. Try resetting the draw.")))
          | Some recipient =>
              if negb (truthy (Some recipient))
              then (state,
                    Some (sendJson 500
                            (ErrorJson
                               "No assignment found. Try resetting the draw.")))
              else
                let drawn :=
                  {| participants := participants state;
                     exclusions := exclusions state;
                     assignments := assignments state;
                     revealed := <[giver:=true]> (revealed state);
                     history := history state
                                ++ [{| entryGiver := giver;
                                       entryRecipient := recipient;
                                       revealedAt := now |}];
                     createdAt := createdAt state |} in
                if saveOk
                then (drawn,
                      Some (sendJson 200
                              (DrawJson giver recipient
                                 (length (getAvailableGivers drawn))
                                 (length (participants drawn)))))
                else
                  ({| participants := participants drawn;
                      exclusions := exclusions drawn;
                      assignments := assignments drawn;
                      revealed := <[giver:=false]> (revealed drawn);
                      history := removelast (history drawn);
                      createdAt := createdAt drawn |},
                   Some (sendJson 500
                           (ErrorJson
                              "Could not save the draw. Please try again.")))
          end
    end.

End Handler.

(** ** The generator without its repair pass

    The same algorithm with the call of [fixExclusions] taken out of the
    condition that accepts a mapping. *)

Definition runAttemptWithoutRepair (names : list string)
    (exclusions : gmap string (list string)) (shuffled : list string)
  : Outcome :=
  let shuffled := unfix names shuffled in
  let '(mapping, ok) := pairUp exclusions (zip names shuffled) ∅ in
  if negb ok then Discarded mapping
  else if validateAssignments mapping names exclusions
       then Accepted mapping
       else ValidationFailed mapping.

Fixpoint attemptLoopWithoutRepair (random : nat → nat) (names : list string)
    (exclusions : gmap string (list string)) (budget attempt : nat)
  : Rand (Result * nat) :=
  match budget with
  | 0 => ret (Thrown couldNotBuild, attempt)
  | S budget' =>
      let* shuffled := shuffle random names in
      match runAttemptWithoutRepair names exclusions shuffled with
      | Accepted mapping => ret (Returned mapping, attempt)
      | _ => attemptLoopWithoutRepair random names exclusions budget'
               (S attempt)
      end
  end.

Definition makeAssignmentsWithoutRepair (random : nat → nat)
    (names : list string) (exclusions : gmap string (list string)) : Result :=
  (attemptLoopWithoutRepair random names exclusions MAX_ATTEMPTS 0 0).1.1.

(** Whether the body of the attempt loop reached the call of
    [fixExclusions]. *)
Definition repairAttempted (o : Outcome) : bool :=
  match o with
  | Discarded _ => false
  | _ => true
  end.

(** The mapping an attempt returns, if it returns one. *)
Definition accepted (o : Outcome) : option (gmap string string) :=
  match o with
  | Accepted mapping => Some mapping
  | _ => None
  end.

(** ** The properties asked of a mapping *)

(** What [validateAssignments] asks of the pairing of one giver. *)
Definition pairOk (names : list string) (excl : gmap string (list string))
    (mapping : gmap string string) (giver recv : string) : Prop :=
  mapping !! giver = Some recv ∧ recv ≠ EmptyString ∧ recv ∈ names
  ∧ giver ≠ recv ∧ recv ∉ bannedSet excl giver.

(** A valid assignment of the roster [names]: the givers are the
    participants, each once; the recipients, read off in roster order, are
    the participants again, each once; nobody has drawn themselves or a
    participant they exclude. *)
Definition validDerangement (names : list string)
    (excl : gmap string (list string)) (mapping : gmap string string) : Prop :=
  NoDup names
  ∧ dom mapping = list_to_set names
  ∧ ((λ p, mapping !! p) <$> names) ≡ₚ (Some <$> names)
  ∧ ∀ p r, mapping !! p = Some r → r ≠ p ∧ r ∉ default [] (excl !! p).

(** The cyclic shift of a roster: every participant gives to the next one,
    the last to the first. *)
Definition cyclicShift (names : list string) : gmap string string :=
  list_to_map (zip names (rotate 1 names)).

(** What holds of the state whenever a request is handled: every
    participant has a flag in [revealed]. *)
Definition stateOk (state : State) : Prop :=
  ∀ name, name ∈ participants state → is_Some (revealed state !! name).

(** The state built by the server on its first start when every call of
    [Math.random] gives 0: the roster is assigned along its cyclic shift. *)
Definition exampleState : State :=
  {| participants := PARTICIPANTS;
     exclusions := EXCLUSIONS;
     assignments := cyclicShift PARTICIPANTS;
     revealed := list_to_map ((λ name, (name, false)) <$> PARTICIPANTS);
     history := [];
     createdAt := "2024-12-01T09:00:00.000Z" |}.

(** ** Loading and resetting the state *)

(** [[...a].sort()] on an array of strings: the default order of [sort]
    compares strings character by character. *)
Definition sortStrings (a : list string) : list string :=
  merge_sort String.le a.

(** [arrayEqualIgnoreOrder] on two arrays of strings.  After the check of
    the lengths the loop compares the sorted arrays position by position. *)
Definition arrayEqualIgnoreOrder (a b : list string) : bool :=
  if negb (bool_decide (length a = length b)) then false
  else forallb (λ entries, bool_decide (entries.1 = entries.2))
         (zip (sortStrings a) (sortStrings b)).

(** [isValidState] on a candidate that is an object with an array of strings
    as [participants] and objects as [assignments] and [revealed]; any other
    candidate is turned down by the checks that come first. *)
Definition isValidState (candidate : RawState) : bool :=
  if negb (arrayEqualIgnoreOrder (rawParticipants candidate) PARTICIPANTS)
  then false
  else validateAssignments (rawAssignments candidate)
         (rawParticipants candidate)
         (default ∅ (rawExclusions candidate)).

(** [resetState] on the variable [state], which is [None] while nothing is
    loaded.  The boolean tells whether the function returns ([true]) or
    throws: when [makeAssignments] throws, [state] is not assigned; when
    [saveState] throws ([saveOk] false), it already is. *)
Definition resetState (random : nat → nat) (now : string) (saveOk : bool)
    (state : option State) : option State * bool :=
  match buildFreshState random now with
  | inl fresh => (Some fresh, saveOk)
  | inr _ => (state, false)
  end.

(** What [loadState] finds: a file that cannot be read or parsed, a parsed
    value that is not of the shape [isValidState] asks for, or a candidate
    of that shape. *)
Inductive StateFile :=
  | Unreadable
  | Malformed
  | WellFormed (candidate : RawState).

(** [loadState].  A reset that throws inside the [try] is caught and
    [resetState] is called once more; [random'], [now'] and [saveOk'] are
    the random source, the time and the outcome of [saveState] of that
    second call. *)
Definition loadState (file : StateFile) (random random' : nat → nat)
    (now now' : string) (saveOk saveOk' : bool) (state : option State)
  : option State * bool :=
  let resetTwice :=
    let '(state1, returned) := resetState random now saveOk state in
    if returned then (state1, true)
    else resetState random' now' saveOk' state1 in
  match file with
  | Unreadable => resetState random now saveOk state
  | Malformed => resetTwice
  | WellFormed candidate =>
      if negb (isValidState candidate) then resetTwice
      else (Some (normalizeState candidate now), true)
  end.

(** ** The handler of /api/reset *)

(** The body of the answer to a reset that went through. *)
Record ResetJson := {
  resetMessage : string;
  resetRemaining : nat;
  resetTotal : nat
}.

(** [handleRequest] on the path /api/reset, with [state] loaded.  The answer
    is the JSON of a reset that went through (status 200) or another
    response; an exception of [resetState] ends in the handler of the server,
    which answers with status 500. *)
Definition handleReset (state : State) (method : string)
    (random : nat → nat) (now : string) (saveOk : bool)
  : State * (Response + ResetJson) :=
  if bool_decide (method = "OPTIONS")
  then (state, inl (sendJson 204 NoBody))
  else if negb (bool_decide (method = "POST"))
  then (state,
        inl (sendJson 405 (ErrorJson "Method not allowed. Use POST.")))
  else
    match resetState random now saveOk (Some state) with
    | (Some state', true) =>
        (state',
         inr {| resetMessage := "Secret Santa assignments reset.";
                resetRemaining := length (getAvailableGivers state');
                resetTotal := length (participants state') |})
    | (state', _) =>
        (default state state',
         inl (sendJson 500 (ErrorJson "Internal server error")))
    end.

(** ** What holds of every state of the server *)

(** The roster is the configured one up to order, every participant has a
    flag, and the assignments pass [validateAssignments] for the roster and
    the exclusions of the state. *)
Definition stateValid (state : State) : Prop :=
  stateOk state
  ∧ participants state ≡ₚ PARTICIPANTS
  ∧ validateAssignments (assignments state) (participants state)
      (exclusions state) = true.

(** The flag [normalizeState] gives a participant: the boolean of the file,
    or false when the file has none. *)
Definition flagOf (flags : gmap string (option bool)) (name : string) : bool :=
  match flags !! name with
  | Some (Some b) => b
  | _ => false
  end.

(** The state after the draw of [giver], to whom [recipient] is disclosed at
    the time [now]. *)
Definition recordDraw (state : State) (giver recipient now : string) : State :=
  {| participants := participants state;
     exclusions := exclusions state;
     assignments := assignments state;
     revealed := <[giver:=true]> (revealed state);
     history := history state
                ++ [{| entryGiver := giver;
                       entryRecipient := recipient;
                       revealedAt := now |}];
     createdAt := createdAt state |}.

(** The history agrees with the flags and the assignments: every entry names
    a giver whose flag is set and the recipient the assignments hold for that
    giver. *)
Definition historyOk (state : State) : Prop :=
  ∀ entry, entry ∈ history state →
    revealed state !! entryGiver entry = Some true
    ∧ assignments state !! entryGiver entry = Some (entryRecipient entry).

(** Requests to /api/draw handled one after the other, each with the name it
    sends and its time, and each saved. *)
Fixpoint drawAll (trim : string → string) (state : State)
    (requests : list (string * string)) : State :=
  match requests with
  | [] => state
  | (name, now) :: rest =>
      drawAll trim
        (handleDraw trim state "POST" (Resolved (Some name)) now true).1 rest
  end.

(** A pairing that the outer loop of [fixExclusions] leaves alone. *)
Definition pairFine (excl : gmap string (list string))
    (map : gmap string string) (g : string) : Prop :=
  isBanned excl g (map !! g) || bool_decide (Some g = map !! g) = false.

(** ** Names that do not read like dictionary keys *)

(** The names of the members that every JavaScript object inherits from
    [Object.prototype].  For such a name [obj[name]] finds the inherited
    member when the object has no property of its own by that name. *)
Definition objectPrototypeNames : list string :=
  ["constructor"; "__defineGetter__"; "__defineSetter__"; "hasOwnProperty";
   "__lookupGetter__"; "__lookupSetter__"; "isPrototypeOf";
   "propertyIsEnumerable"; "toString"; "valueOf"; "__proto__";
   "toLocaleString"].

(** A roster none of whose names is the name of such a member.  For these
    rosters every property read of the generator is a dictionary lookup. *)
Definition plainNames (names : list string) : Prop :=
  Forall (λ name, name ∉ objectPrototypeNames) names.

(** What the read [exclusions[giver]] finds: the array the object holds for
    the giver, an inherited member, or nothing. *)
Inductive ExclusionsRead :=
  | OwnEntry (excluded : list string)
  | InheritedMember
  | NoEntry.

Definition readExclusions (exclusions : gmap string (list string))
    (giver : string) : ExclusionsRead :=
  match exclusions !! giver with
  | Some excluded => OwnEntry excluded
  | None =>
      if bool_decide (giver ∈ objectPrototypeNames) then InheritedMember
      else NoEntry
  end.

(** [new Set([giver, ...(exclusions[giver] || [])])] with the inherited
    members taken into account: they are truthy and cannot be iterated, so
    the spread throws a TypeError, which is [None] here. *)
Definition bannedSetJs (exclusions : gmap string (list string))
    (giver : string) : option (gset string) :=
  match readExclusions exclusions giver with
  | OwnEntry excluded => Some (list_to_set (giver :: excluded))
  | InheritedMember => None
  | NoEntry => Some (list_to_set [giver])
  end.

(** ** The handlers, up to and after the saving of the state

    [await saveState()] suspends a handler; requests that arrive meanwhile
    are handled on the same [state], and the handler reads [state] again
    when it goes on.  The two parts of each handler are given here; handling
    other requests between them is applying their parts to the state in
    between.  [handleDraw] and [handleReset] are the two parts run one
    after the other with nothing in between. *)

(** The draw whose save is awaited: the [giver] and the [recipient] of the
    handler. *)
Record PendingDraw := {
  pendingGiver : string;
  pendingRecipient : string
}.

(** The handler of /api/draw up to the call of [saveState]: either the
    request is answered ([inl], with the response if one is sent) or the draw
    is recorded in the state and the save is awaited ([inr]). *)
Definition drawBegin (trim : string → string) (state : State)
    (method : string) (body : ReadJson) (now : string)
  : State * (option Response + PendingDraw) :=
  if bool_decide (method = "OPTIONS")
  then (state, inl (Some (sendJson 204 NoBody)))
  else if negb (bool_decide (method = "POST"))
  then (state,
        inl (Some (sendJson 405 (ErrorJson "Method not allowed. Use POST."))))
  else
    match body with
    | Rejected err =>
        (state,
         inl (Some (sendJson (if bool_decide (statusCodeOf err = 0) then 400
                              else statusCodeOf err)
                      (ErrorJson (if bool_decide (messageOf err = EmptyString)
                                  then "Invalid request body"
                                  else messageOf err)))))
    | ResolvedFalsy => (state, inl None)
    | Resolved field =>
        let giver := match field with
                     | Some s => trim s
                     | None => EmptyString
                     end in
        if bool_decide (giver = EmptyString)
        then (state,
              inl (Some (sendJson 400
                           (ErrorJson ("Missing or invalid " +:+ quote
                                       +:+ "giver" +:+ quote +:+ " name.")))))
        else if negb (bool_decide (giver ∈ participants state))
        then (state,
              inl (Some (sendJson 404
                           (ErrorJson
                              "That name is not in the participant list."))))
        else if bool_decide (revealed state !! giver = Some true)
        then (state,
              inl (Some (sendJson 409
                           (ErrorJson "That person already drew a name."))))
        else
          match assignments state !! giver with
          | None =>
              (state,
               inl (Some (sendJson 500
                            (ErrorJson
                               "No assignment found. Try resetting the draw."))))
          | Some recipient =>
              if negb (truthy (Some recipient))
              then (state,
                    inl (Some (sendJson 500
                                 (ErrorJson
                                    "No assignment found. Try resetting the draw."))))
              else
                ({| participants := participants state;
                    exclusions := exclusions state;
                    assignments := assignments state;
                    revealed := <[giver:=true]> (revealed state);
                    history := history state
                               ++ [{| entryGiver := giver;
                                      entryRecipient := recipient;
                                      revealedAt := now |}];
                    createdAt := createdAt state |},
                 inr {| pendingGiver := giver;
                        pendingRecipient := recipient |})
          end
    end.

(** The handler of /api/draw from the point where [saveState] has settled;
    [state] is the state of the server at that time. *)
Definition drawEnd (state : State) (pending : PendingDraw) (saveOk : bool)
  : State * Response :=
  if saveOk
  then (state,
        sendJson 200
          (DrawJson (pendingGiver pending) (pendingRecipient pending)
             (length (getAvailableGivers state))
             (length (participants state))))
  else ({| participants := participants state;
           exclusions := exclusions state;
           assignments := assignments state;
           revealed := <[pendingGiver pending:=false]> (revealed state);
           history := removelast (history state);
           createdAt := createdAt state |},
        sendJson 500
          (ErrorJson "Could not save the draw. Please try again.")).

(** The handler of /api/reset up to the call of [saveState] in [resetState]:
    the request is answered ([Some]), or the state is replaced by a fresh one
    and the save is awaited ([None]). *)
Definition resetBegin (state : State) (method : string)
    (random : nat → nat) (now : string) : State * option Response :=
  if bool_decide (method = "OPTIONS")
  then (state, Some (sendJson 204 NoBody))
  else if negb (bool_decide (method = "POST"))
  then (state,
        Some (sendJson 405 (ErrorJson "Method not allowed. Use POST.")))
  else
    match buildFreshState random now with
    | inl fresh => (fresh, None)
    | inr _ =>
        (state, Some (sendJson 500 (ErrorJson "Internal server error")))
    end.

(** The handler of /api/reset from the point where [saveState] has settled;
    [state] is the state of the server at that time, which the handler
    leaves as it is. *)
Definition resetEnd (state : State) (saveOk : bool) : Response + ResetJson :=
  if saveOk
  then inr {| resetMessage := "Secret Santa assignments reset.";
              resetRemaining := length (getAvailableGivers state);
              resetTotal := length (participants state) |}
  else inl (sendJson 500 (ErrorJson "Internal server error")).

(** * Properties of the generator *)

Section ValidateAssignments.

Context (names : list string) (excl : gmap string (list string)).
Context (mapping : gmap string string).

Lemma validatePair_true giver recv :
  validatePair giver recv excl = true
  ↔ giver ≠ recv ∧ recv ∉ bannedSet excl giver.
Proof.
  unfold validatePair, has.
  repeat case_bool_decide; simpl; naive_solver.
Qed.

Lemma validateLoop_sound givers seen seen' :
  validateLoop mapping names excl givers seen = Some seen' →
  ∃ recvs, Forall2 (pairOk names excl mapping) givers recvs
           ∧ NoDup recvs
           ∧ (∀ r, r ∈ recvs → r ∉ seen)
           ∧ seen' = list_to_set recvs ∪ seen.
Proof.
  revert seen.
  induction givers as [|g givers IH]; intros seen Hloop; simpl in Hloop.
  - exists []. split_and!; [constructor | constructor | set_solver | set_solver].
  - destruct (mapping !! g) as [r|] eqn:Hg; [|done].
    unfold truthy, has in Hloop.
    repeat case_bool_decide; simpl in Hloop; try done.
    apply IH in Hloop as (recvs & Hall & Hnd & Hfresh & ->).
    exists (r :: recvs). split_and!.
    + constructor; [by repeat split|done].
    + constructor; [|done]. intros Hin. apply Hfresh in Hin. set_solver.
    + intros r' [->|Hin]%elem_of_cons; [done|].
      apply Hfresh in Hin. set_solver.
    + set_solver.
Qed.

Lemma validateLoop_complete givers recvs seen :
  Forall2 (pairOk names excl mapping) givers recvs →
  NoDup recvs →
  (∀ r, r ∈ recvs → r ∉ seen) →
  validateLoop mapping names excl givers seen
  = Some (list_to_set recvs ∪ seen).
Proof.
  intros Hall. revert seen.
  induction Hall as [|g r givers recvs (Hg & Hne & Hin & Hself & Hban) _ IH];
    intros seen Hnd Hfresh; simpl.
  - f_equal. set_solver.
  - apply NoDup_cons in Hnd as [Hr Hnd].
    rewrite Hg. unfold truthy, has.
    assert (r ∉ seen) by (apply Hfresh; left).
    repeat case_bool_decide; simpl; try done.
    rewrite IH; [f_equal; set_solver|done|].
    intros r' Hr'. specialize (Hfresh r' ltac:(by right)). set_solver.
Qed.

(** [validateAssignments] accepts exactly the mappings whose pairings, in
    roster order, are all in order and lead to distinct recipients; the final
    comparison of sizes then always holds. *)
Lemma validateAssignments_true :
  validateAssignments mapping names excl = true
  ↔ ∃ recvs, Forall2 (pairOk names excl mapping) names recvs ∧ NoDup recvs.
Proof.
  unfold validateAssignments. split.
  - destruct (validateLoop _ _ _ _ _) as [seen|] eqn:Hloop; [|done].
    intros _. apply validateLoop_sound in Hloop as (recvs & ? & ? & _).
    by exists recvs.
  - intros (recvs & Hall & Hnd).
    rewrite (validateLoop_complete names recvs ∅); [|done..|set_solver].
    apply bool_decide_eq_true.
    rewrite size_union, size_empty, size_list_to_set by (done || set_solver).
    rewrite Nat.add_0_r. symmetry. by eapply Forall2_length.
Qed.

End ValidateAssignments.

Section Pairing.

Context (excl : gmap string (list string)).

(** When the pairing loop ends with [ok] true, every pair has passed
    [validatePair] and all of them were written to the mapping, a later
    write to the same giver replacing an earlier one. *)
Lemma pairUp_true pairs mapping0 mapping :
  pairUp excl pairs mapping0 = (mapping, true) →
  Forall (λ gr, validatePair gr.1 gr.2 excl = true) pairs
  ∧ mapping = list_to_map (reverse pairs) ∪ mapping0.
Proof.
  revert mapping0.
  induction pairs as [|[g r] pairs IH]; intros mapping0 Hrun; simpl in Hrun.
  - inversion Hrun; subst. split; [constructor|].
    by rewrite reverse_nil, list_to_map_nil, (left_id_L ∅ (∪)).
  - destruct (validatePair g r excl) eqn:Hpair; [|done].
    apply IH in Hrun as [Hall ->]. split; [by constructor|].
    rewrite reverse_cons, list_to_map_app. simpl.
    by rewrite <-(assoc_L (∪)), insert_empty, <-insert_union_singleton_l.
Qed.

Lemma pairUp_all_valid pairs mapping0 :
  Forall (λ gr, validatePair gr.1 gr.2 excl = true) pairs →
  pairUp excl pairs mapping0
  = (list_to_map (reverse pairs) ∪ mapping0, true).
Proof.
  revert mapping0.
  induction pairs as [|[g r] pairs IH]; intros mapping0 Hall; simpl.
  - by rewrite (left_id_L ∅ (∪)).
  - apply Forall_cons in Hall as [Hpair Hall]. simpl in Hpair.
    rewrite Hpair, IH by done. f_equal.
    rewrite reverse_cons, list_to_map_app. simpl.
    by rewrite <-(assoc_L (∪)), insert_empty, <-insert_union_singleton_l.
Qed.

(** The candidate handed on by the pairing loop: every entry of it is one of
    the pairs, all of which passed [validatePair], and its givers are the
    names paired. *)
Lemma pairUp_candidate pairs mapping :
  pairUp excl pairs ∅ = (mapping, true) →
  (∀ g r, mapping !! g = Some r →
          (g, r) ∈ pairs ∧ validatePair g r excl = true)
  ∧ ∀ g, is_Some (mapping !! g) ↔ g ∈ pairs.*1.
Proof.
  intros [Hall ->]%pairUp_true. rewrite (right_id_L ∅ (∪)). split.
  - intros g r Hgr%elem_of_list_to_map_2. rewrite elem_of_reverse in Hgr.
    split; [done|]. rewrite Forall_forall in Hall. by apply (Hall (g, r)).
  - intros g. rewrite <-not_eq_None_Some, <-not_elem_of_list_to_map.
    rewrite fmap_reverse, elem_of_reverse.
    split; [apply dec_stable | tauto].
Qed.

(** The final [ok] tells whether every pair passes [validatePair]. *)
Lemma pairUp_ok pairs mapping0 :
  (pairUp excl pairs mapping0).2
  = forallb (λ gr, validatePair gr.1 gr.2 excl) pairs.
Proof.
  revert mapping0. induction pairs as [|[g r] pairs IH]; intros m; simpl.
  - done.
  - destruct (validatePair g r excl); [apply IH|done].
Qed.

End Pairing.

Section Repair.

Context (excl : gmap string (list string)) (names : list string).
Context (map : gmap string string).

(** A candidate: a mapping all of whose entries pass [validatePair]. *)
Hypothesis candidate : ∀ g r, map !! g = Some r → validatePair g r excl = true.

Lemma candidate_not_banned g :
  isBanned excl g (map !! g) || bool_decide (Some g = map !! g) = false.
Proof using candidate.
  unfold isBanned, has. destruct (map !! g) as [r|] eqn:Hg.
  - apply candidate, validatePair_true in Hg as [Hne Hban].
    rewrite !bool_decide_eq_false_2; [done|congruence|done].
  - by rewrite bool_decide_eq_false_2.
Qed.

(** On a candidate the outer loop of [fixExclusions] never enters its
    branch: no swap is searched for and the map stays as it is. *)
Lemma repairLoop_candidate todo :
  repairLoop excl names todo map = (true, map).
Proof using candidate.
  induction todo as [|[i g] todo IH]; simpl; [done|].
  by rewrite candidate_not_banned.
Qed.

Lemma every_candidate l :
  forallb (λ name, truthy (map !! name)
                   && negb (bool_decide (map !! name = Some name))) l
  = forallb (λ name, truthy (map !! name)) l.
Proof using candidate.
  induction l as [|g l IH]; simpl; [done|]. rewrite IH. f_equal.
  destruct (map !! g) as [r|] eqn:Hg; [|done].
  apply candidate, validatePair_true in Hg as [Hne _].
  rewrite (bool_decide_eq_false_2 (Some r = Some g)) by congruence.
  by rewrite andb_true_r.
Qed.

Lemma fixExclusions_candidate :
  fixExclusions map names excl
  = (forallb (λ name, truthy (map !! name)) names, map).
Proof using candidate.
  unfold fixExclusions. by rewrite repairLoop_candidate, every_candidate.
Qed.

End Repair.

Section Attempt.

Context (names : list string) (excl : gmap string (list string)).

Lemma Forall2_pairOk_truthy mapping givers recvs :
  Forall2 (pairOk names excl mapping) givers recvs →
  forallb (λ name, truthy (mapping !! name)) givers = true.
Proof.
  induction 1 as [|g r givers recvs (Hg & Hne & _) _ IH]; simpl; [done|].
  rewrite Hg, IH. simpl. by rewrite bool_decide_eq_false_2.
Qed.

Lemma Forall2_pairOk_lookup mapping givers recvs g :
  Forall2 (pairOk names excl mapping) givers recvs →
  g ∈ givers →
  ∃ r, r ∈ recvs ∧ pairOk names excl mapping g r.
Proof.
  intros Hall [i Hi]%list_elem_of_lookup_1.
  destruct (Forall2_lookup_l _ _ _ _ _ Hall Hi) as (r & Hr & Hok).
  exists r. split; [by eapply list_elem_of_lookup_2|done].
Qed.

(** The repair pass changes nothing about which mappings are accepted. *)
Lemma runAttempt_accepted shuffled :
  accepted (runAttempt names excl shuffled)
  = accepted (runAttemptWithoutRepair names excl shuffled).
Proof.
  unfold runAttempt, runAttemptWithoutRepair.
  destruct (pairUp _ _ _) as [mapping [|]] eqn:Hpairs; simpl; [|done].
  apply pairUp_candidate in Hpairs as [Hcand _].
  rewrite fixExclusions_candidate by (intros ???; by apply Hcand).
  destruct (forallb _ names) eqn:Hevery; [done|].
  destruct (validateAssignments mapping names excl) eqn:Hvalid; [|done].
  apply validateAssignments_true in Hvalid as (recvs & Hall & _).
  apply Forall2_pairOk_truthy in Hall. congruence.
Qed.

(** What is known of a mapping that an attempt returns. *)
Lemma runAttempt_Accepted shuffled mapping :
  runAttempt names excl shuffled = Accepted mapping →
  validateAssignments mapping names excl = true
  ∧ (∀ g, is_Some (mapping !! g) → g ∈ names)
  ∧ pairUp excl (zip names (unfix names shuffled)) ∅ = (mapping, true).
Proof.
  unfold runAttempt.
  destruct (pairUp _ _ _) as [candidate [|]] eqn:Hpairs; simpl; [|done].
  pose proof Hpairs as [Hcand Hdom]%pairUp_candidate.
  rewrite fixExclusions_candidate by (intros ???; by apply Hcand).
  destruct (forallb _ names); [|done].
  destruct (validateAssignments candidate names excl) eqn:Hvalid; [|done].
  intros [= <-]. split_and!; [done| |done].
  intros g [[g' r] [-> Hin]]%Hdom%list_elem_of_fmap_1.
  by eapply elem_of_zip_l.
Qed.

(** A mapping that passes [validateAssignments] and has no givers outside
    the roster is a valid assignment of the roster. *)
Lemma validateAssignments_derangement mapping :
  validateAssignments mapping names excl = true →
  (∀ g, is_Some (mapping !! g) → g ∈ names) →
  validDerangement names excl mapping.
Proof.
  intros (recvs & Hall & Hnd)%validateAssignments_true Hdom.
  assert (Hrecvs : (λ p, mapping !! p) <$> names = Some <$> recvs).
  { clear Hnd Hdom. induction Hall as [|g r ?? (Hg & _) _ IH]; [done|].
    by rewrite !fmap_cons, Hg, IH. }
  assert (Hnames : NoDup names).
  { apply (NoDup_fmap_1 (λ p, mapping !! p)). rewrite Hrecvs.
    by apply (NoDup_fmap_2 Some). }
  assert (Hperm : recvs ≡ₚ names).
  { apply submseteq_length_Permutation.
    - apply NoDup_submseteq; [done|]. intros r [i Hi]%list_elem_of_lookup_1.
      destruct (Forall2_lookup_r _ _ _ _ _ Hall Hi) as (g & _ & _ & _ & ? & _).
      done.
    - by rewrite (Forall2_length _ _ _ Hall). }
  split_and!; [done| | |].
  - apply set_eq. intros g. rewrite elem_of_dom, elem_of_list_to_set.
    split; [apply Hdom|]. intros Hg.
    destruct (Forall2_pairOk_lookup _ _ _ _ Hall Hg) as (r & _ & -> & _).
    by eexists.
  - by rewrite Hrecvs, Hperm.
  - intros p r Hp.
    destruct (Forall2_pairOk_lookup _ _ _ p Hall) as (r' & _ & Hp' & _ & _ & Hne & Hban).
    { apply Hdom. by eexists. }
    assert (r' = r) as -> by congruence.
    split; [done|]. intros Hin. apply Hban. unfold bannedSet.
    rewrite elem_of_list_to_set. by right.
Qed.

End Attempt.

Section Shuffle.

Lemma swap_length i j arr : length (swap i j arr) = length arr.
Proof.
  unfold swap. destruct (arr !! i), (arr !! j); try done.
  by rewrite !length_insert.
Qed.

Lemma insert_head_Permutation (l : list string) j x y :
  l !! j = Some y → y :: <[j:=x]> l ≡ₚ x :: l.
Proof.
  revert j. induction l as [|a l IH]; intros [|j] Hj; simplify_eq/=.
  - apply Permutation_swap.
  - rewrite (Permutation_swap a y), (IH _ Hj). apply Permutation_swap.
Qed.

Lemma swap_Permutation i j arr : swap i j arr ≡ₚ arr.
Proof.
  unfold swap.
  destruct (arr !! i) as [x|] eqn:Hi; [|done].
  destruct (arr !! j) as [y|] eqn:Hj; [|done].
  revert i j Hi Hj.
  induction arr as [|a arr IH]; intros [|i] [|j] Hi Hj; simplify_eq/=.
  - done.
  - by apply insert_head_Permutation.
  - by apply insert_head_Permutation.
  - by rewrite IH.
Qed.

Context (random : nat → nat).

(** The shuffle returns a permutation of its argument and calls
    [Math.random] once for each position but the first. *)
Lemma shuffleFrom_spec i arr calls :
  ∃ arr', shuffleFrom random i arr calls = (arr', calls + i) ∧ arr' ≡ₚ arr.
Proof.
  revert arr calls.
  induction i as [|i IH]; intros arr calls; cbn [shuffleFrom].
  - exists arr. by rewrite Nat.add_0_r.
  - unfold bind, randomBelow.
    destruct (IH (swap (S i) (random calls `mod` (S i + 1)) arr) (S calls))
      as (arr' & -> & Hperm).
    exists arr'. split; [f_equal; lia|].
    by rewrite Hperm, swap_Permutation.
Qed.

Lemma shuffle_spec arr calls :
  ∃ arr', shuffle random arr calls = (arr', calls + (length arr - 1))
          ∧ arr' ≡ₚ arr.
Proof. apply shuffleFrom_spec. Qed.

End Shuffle.

Section AttemptLoop.

Context (random : nat → nat).
Context (names : list string) (excl : gmap string (list string)).

(** The attempt loop either returns the mapping accepted by one of its
    attempts, having abandoned fewer than [budget] attempts before it, or
    throws once [budget] attempts have been abandoned.  Each attempt calls
    [Math.random] exactly [length names - 1] times. *)
Lemma attemptLoop_spec budget attempt calls :
  (∃ n mapping shuffled,
      n < budget
      ∧ attemptLoop random names excl budget attempt calls
        = (Returned mapping, attempt + n,
           calls + (n + 1) * (length names - 1))
      ∧ shuffled ≡ₚ names
      ∧ runAttempt names excl shuffled = Accepted mapping)
  ∨ attemptLoop random names excl budget attempt calls
    = (Thrown couldNotBuild, attempt + budget,
       calls + budget * (length names - 1)).
Proof.
  revert attempt calls.
  induction budget as [|budget IH]; intros attempt calls; simpl.
  - right. unfold ret. f_equal; [f_equal|]; lia.
  - unfold bind.
    destruct (shuffle_spec random names calls) as (shuffled & -> & Hperm).
    destruct (runAttempt names excl shuffled) as [m|m|m|m] eqn:Hrun.
    4: { left. exists 0, m, shuffled. split_and!; [lia| |done|done].
         unfold ret. f_equal; [f_equal|]; lia. }
    all: destruct (IH (S attempt) (calls + (length names - 1)))
           as [(n & m' & sh' & Hn & -> & Hperm' & Hrun')| ->];
         [ left; exists (S n), m', sh';
           split_and!; [lia| |done|done]; f_equal; [f_equal|]; lia
         | right; f_equal; [f_equal|]; lia ].
Qed.

(** An attempt that is accepted ends the loop at once. *)
Lemma attemptLoop_first budget attempt calls shuffled calls' mapping :
  shuffle random names calls = (shuffled, calls') →
  runAttempt names excl shuffled = Accepted mapping →
  attemptLoop random names excl (S budget) attempt calls
  = (Returned mapping, attempt, calls').
Proof. intros Hsh Hrun. simpl. unfold bind. by rewrite Hsh, Hrun. Qed.

(** The loop with and without the repair pass. *)
Lemma attemptLoop_without_repair budget attempt calls :
  attemptLoop random names excl budget attempt calls
  = attemptLoopWithoutRepair random names excl budget attempt calls.
Proof.
  revert attempt calls.
  induction budget as [|budget IH]; intros attempt calls; simpl; [done|].
  unfold bind. destruct (shuffle random names calls) as [shuffled calls'].
  pose proof (runAttempt_accepted names excl shuffled) as Hacc.
  destruct (runAttempt names excl shuffled),
    (runAttemptWithoutRepair names excl shuffled); simplify_eq/=; done.
Qed.

(** What [makeAssignments] returns was accepted by an attempt. *)
Lemma makeAssignments_Returned mapping :
  makeAssignments random names excl = Returned mapping →
  ∃ shuffled, shuffled ≡ₚ names
              ∧ runAttempt names excl shuffled = Accepted mapping.
Proof.
  unfold makeAssignments, makeAssignmentsRun.
  destruct (attemptLoop_spec MAX_ATTEMPTS 0 0)
    as [(n & m & sh & _ & -> & Hperm & Hrun)| ->]; simpl; [|done].
  intros [= <-]. by exists sh.
Qed.

(** When no attempt can be accepted, the loop runs out of its budget. *)
Lemma makeAssignmentsRun_Thrown :
  (∀ shuffled mapping, runAttempt names excl shuffled ≠ Accepted mapping) →
  makeAssignmentsRun random names excl 0
  = (Thrown couldNotBuild, MAX_ATTEMPTS,
     MAX_ATTEMPTS * (length names - 1)).
Proof.
  intros Hnone. unfold makeAssignmentsRun.
  destruct (attemptLoop_spec MAX_ATTEMPTS 0 0)
    as [(n & m & sh & _ & _ & _ & Hrun)| ->]; [by apply Hnone in Hrun|done].
Qed.

End AttemptLoop.

Section Unfix.

Context (names : list string).
Hypothesis names_NoDup : NoDup names.
Hypothesis names_two : (2 ≤ length names)%nat.

(** One step of the first inner loop keeps the array a permutation of the
    roster and leaves no position up to [k] holding its own name. *)
Lemma unfixStep_inv shuffled k :
  k < length names →
  shuffled ≡ₚ names →
  (∀ i, i < k → shuffled !! i ≠ names !! i) →
  unfixStep names shuffled k ≡ₚ names
  ∧ ∀ i, i < S k → unfixStep names shuffled k !! i ≠ names !! i.
Proof using names_NoDup names_two.
  intros Hk Hperm Hprev. unfold unfixStep.
  pose proof (Permutation_length Hperm) as Hlen.
  assert (Hnd : NoDup shuffled) by by rewrite Hperm.
  case_bool_decide as Heq.
  - set (j := if bool_decide (k = length names - 1) then 0 else k + 1).
    assert (Hj : j < length names ∧ j ≠ k).
    { unfold j. case_bool_decide; lia. }
    destruct Hj as [Hj Hjk].
    destruct (lookup_lt_is_Some_2 shuffled k) as [x Hx]; [lia|].
    destruct (lookup_lt_is_Some_2 shuffled j) as [y Hy]; [lia|].
    assert (Hxy : x ≠ y).
    { intros ->. apply Hjk. by eapply (proj1 (NoDup_alt shuffled)). }
    split; [by rewrite swap_Permutation|].
    unfold swap. rewrite Hx, Hy. intros i Hi.
    destruct (decide (i = j)) as [->|Hij].
    + rewrite list_lookup_insert_eq by (rewrite length_insert; lia).
      intros Hname. apply Hjk.
      eapply (proj1 (NoDup_alt names)); [done|..]; [by symmetry|congruence].
    + rewrite list_lookup_insert_ne by done.
      destruct (decide (i = k)) as [->|Hik].
      * rewrite list_lookup_insert_eq by lia. congruence.
      * rewrite list_lookup_insert_ne by done. apply Hprev. lia.
  - split; [done|]. intros i Hi.
    destruct (decide (i = k)) as [->|]; [done|apply Hprev; lia].
Qed.

Lemma unfix_prefix_inv shuffled (k : nat) :
  (k ≤ length names)%nat →
  shuffled ≡ₚ names →
  foldl (unfixStep names) shuffled (seq 0 k) ≡ₚ names
  ∧ ∀ i, i < k →
         foldl (unfixStep names) shuffled (seq 0 k) !! i ≠ names !! i.
Proof using names_NoDup names_two.
  intros Hk Hperm. induction k as [|k IH].
  - split; [done|lia].
  - rewrite seq_S, foldl_app. simpl.
    destruct IH as [IHperm IHfix]; [lia|].
    apply unfixStep_inv; [lia|done..].
Qed.

(** For a roster of at least two distinct names the first inner loop turns
    any shuffle into a permutation without a name at its own position. *)
Lemma unfix_derangement shuffled :
  shuffled ≡ₚ names →
  unfix names shuffled ≡ₚ names
  ∧ ∀ i, i < length names → unfix names shuffled !! i ≠ names !! i.
Proof using names_NoDup names_two. by apply unfix_prefix_inv. Qed.

End Unfix.

Section Candidates.

Context (names : list string) (excl : gmap string (list string)).

(** The first inner loop only swaps entries. *)
Lemma unfix_Permutation shuffled : unfix names shuffled ≡ₚ shuffled.
Proof.
  unfold unfix. generalize (seq 0 (length names)). intros l. revert shuffled.
  induction l as [|i l IH]; intros shuffled; simpl; [done|].
  rewrite IH. unfold unfixStep. case_bool_decide; [|done].
  apply swap_Permutation.
Qed.

Lemma repairAttempted_ok shuffled :
  repairAttempted (runAttempt names excl shuffled)
  = forallb (λ gr, validatePair gr.1 gr.2 excl)
      (zip names (unfix names shuffled)).
Proof.
  rewrite <-(pairUp_ok excl _ ∅). unfold runAttempt.
  destruct (pairUp _ _ _) as [candidate [|]]; simpl; [|done].
  destruct (fixExclusions _ _ _) as [[|] m]; [|done].
  by destruct (validateAssignments _ _ _).
Qed.

(** On the candidate of a shuffle, every name of the roster has a recipient
    from the roster. *)
Lemma candidate_recipients shuffled candidate g :
  shuffled ≡ₚ names →
  pairUp excl (zip names (unfix names shuffled)) ∅ = (candidate, true) →
  g ∈ names →
  ∃ r, candidate !! g = Some r ∧ r ∈ names.
Proof.
  intros Hperm [Hcand Hdom]%pairUp_candidate Hg.
  assert (Hsh : unfix names shuffled ≡ₚ names)
    by by rewrite unfix_Permutation.
  destruct (proj2 (Hdom g)) as [r Hr].
  { rewrite fst_zip; [done|]. by rewrite (Permutation_length Hsh). }
  exists r. split; [done|].
  apply Hcand in Hr as [Hin%elem_of_zip_r _]. by rewrite <-Hsh.
Qed.

(** An attempt whose pairs all pass [validatePair] is accepted, when the
    roster has no duplicates and no empty name. *)
Lemma runAttempt_all_valid shuffled :
  NoDup names →
  EmptyString ∉ names →
  shuffled ≡ₚ names →
  Forall (λ gr, validatePair gr.1 gr.2 excl = true)
    (zip names (unfix names shuffled)) →
  ∃ mapping, runAttempt names excl shuffled = Accepted mapping.
Proof.
  intros Hnd Hempty Hperm Hall.
  assert (Hsh : unfix names shuffled ≡ₚ names)
    by by rewrite unfix_Permutation.
  pose proof (Permutation_length Hsh) as Hlen.
  pose proof (pairUp_all_valid excl _ ∅ Hall) as Hpairs.
  unfold runAttempt. rewrite Hpairs. simpl.
  pose proof Hpairs as [Hcand Hdom]%pairUp_candidate.
  rewrite fixExclusions_candidate by (intros ???; by apply Hcand).
  set (candidate := list_to_map _ ∪ ∅) in *.
  assert (Hok : Forall2 (pairOk names excl candidate) names
                  (unfix names shuffled)).
  { apply Forall2_same_length_lookup_2; [done|].
    intros i g r Hg Hr.
    assert (Hin : (g, r) ∈ zip names (unfix names shuffled)).
    { apply elem_of_lookup_zip_with. by exists i, g, r. }
    assert (Hrn : r ∈ names).
    { rewrite <-Hsh. by eapply list_elem_of_lookup_2. }
    rewrite Forall_forall in Hall.
    pose proof (Hall _ Hin) as [Hne Hban]%validatePair_true.
    split_and!; [|by intros ->|done..].
    unfold candidate. rewrite (right_id_L ∅ (∪)).
    apply elem_of_list_to_map_1; [|by apply elem_of_reverse].
    by rewrite fmap_reverse, fst_zip, reverse_Permutation by lia. }
  rewrite (Forall2_pairOk_truthy _ _ _ _ _ Hok).
  rewrite (proj2 (validateAssignments_true names excl candidate)); [by eexists|].
  eexists. split; [done|]. by rewrite Hsh.
Qed.

(** A mapping accepted by an attempt is a valid assignment of the roster. *)
Lemma runAttempt_Accepted_valid shuffled mapping :
  runAttempt names excl shuffled = Accepted mapping →
  validDerangement names excl mapping.
Proof.
  intros (Hvalid & Hdom & _)%runAttempt_Accepted.
  by apply validateAssignments_derangement.
Qed.

End Candidates.

(** Without exclusions, a pair passes [validatePair] when its two names
    differ. *)
Lemma validatePair_no_exclusions giver recv :
  giver ≠ recv → validatePair giver recv ∅ = true.
Proof.
  intros Hne. apply validatePair_true. split; [done|].
  unfold bannedSet. rewrite lookup_empty. simpl. set_solver.
Qed.

(** ** The results of makeAssignments *)

(** C1.  Every mapping returned by [makeAssignments] is a valid assignment
    of the roster: its givers are exactly the participants, the recipients
    read off in roster order are a permutation of the roster (so each
    participant is recipient once), nobody is mapped to themselves and
    nobody to a participant they exclude.  A roster for which a mapping is
    returned has no duplicates. *)
Theorem makeAssignments_valid random names excl mapping :
  makeAssignments random names excl = Returned mapping →
  validDerangement names excl mapping.
Proof.
  intros (shuffled & _ & Hrun)%makeAssignments_Returned.
  by eapply runAttempt_Accepted_valid.
Qed.

Lemma makeAssignments_valid_witness :
  validDerangement PARTICIPANTS EXCLUSIONS
    (list_to_map [("Alice", "Bob"); ("Bob", "Charlie");
                  ("Charlie", "Danielle"); ("Danielle", "Erin");
                  ("Erin", "Frank"); ("Frank", "Alice")]).
Proof.
  apply (makeAssignments_valid (λ _, 0)). vm_compute. reflexivity.
Defined.

(** C2, as the spec has it, fails: with Alice excluding Bob and the shuffle
    [Bob; Alice; Danielle; Charlie], the pairing loop finds Alice paired with
    Bob and the attempt is abandoned without a call of [fixExclusions],
    although the repair pass would have turned the full candidate into a
    mapping that [validateAssignments] accepts. *)
Lemma repair_not_attempted :
  let names := ["Alice"; "Bob"; "Charlie"; "Danielle"] in
  let excl : gmap string (list string) := {["Alice" := ["Bob"]]} in
  let shuffled := ["Bob"; "Alice"; "Danielle"; "Charlie"] in
  unfix names shuffled = shuffled
  ∧ validatePair "Alice" "Bob" excl = false
  ∧ repairAttempted (runAttempt names excl shuffled) = false
  ∧ runAttempt names excl shuffled = Discarded {["Alice" := "Bob"]}
  ∧ ∃ repaired,
      fixExclusions (list_to_map (zip names shuffled)) names excl
      = (true, repaired)
      ∧ validateAssignments repaired names excl = true.
Proof.
  cbv zeta. split_and!; [by vm_compute..|].
  eexists. split; vm_compute; reflexivity.
Qed.

(** C2, amended.  The repair pass is reached exactly when every pairing of
    the candidate passes [validatePair]; an attempt in which the pairing loop
    finds a violation is abandoned at once, without repair. *)
Theorem repair_only_after_valid_pairs names excl shuffled :
  repairAttempted (runAttempt names excl shuffled)
  = forallb (λ gr, validatePair gr.1 gr.2 excl)
      (zip names (unfix names shuffled)).
Proof. apply repairAttempted_ok. Qed.

(** C3, as the spec has it, fails: for the empty roster, which has fewer
    than two entries, a mapping (the empty one) is returned. *)
Lemma empty_roster_returns :
  length ([] : list string) < 2
  ∧ makeAssignments (λ _, 0) [] ∅ = Returned ∅.
Proof. split; [simpl; lia|by vm_compute]. Qed.

(** C3, amended.  For a roster with duplicates or with exactly one entry,
    no name of which is the name of a member inherited from
    [Object.prototype], no attempt is accepted: the generator runs out of its
    attempts and throws its only error. *)
Theorem makeAssignments_invalid_roster random names excl :
  plainNames names →
  ¬ NoDup names ∨ length names = 1 →
  makeAssignments random names excl = Thrown couldNotBuild
  ∧ (makeAssignmentsRun random names excl 0).1.2 = MAX_ATTEMPTS.
Proof.
  intros _ Hbad.
  assert (Hrun : makeAssignmentsRun random names excl 0
                 = (Thrown couldNotBuild, MAX_ATTEMPTS,
                    MAX_ATTEMPTS * (length names - 1))).
  { apply makeAssignmentsRun_Thrown.
    intros shuffled mapping (Hnd & _ & Hperm & Hpairs)%runAttempt_Accepted_valid.
    destruct Hbad as [Hdup|Hone]; [done|].
    destruct names as [|p [|??]]; simplify_eq/=.
    apply Permutation_singleton_r in Hperm. simplify_eq/=.
    by edestruct Hpairs as [? _]. }
  unfold makeAssignments. by rewrite Hrun.
Qed.

Lemma makeAssignments_invalid_roster_witness :
  makeAssignments (λ k, k) ["Alice"; "Bob"; "Alice"] ∅ = Thrown couldNotBuild
  ∧ (makeAssignmentsRun (λ k, k) ["Alice"; "Bob"; "Alice"] ∅ 0).1.2
    = MAX_ATTEMPTS.
Proof.
  apply (makeAssignments_invalid_roster (λ k, k) ["Alice"; "Bob"; "Alice"] ∅).
  - unfold plainNames. apply (bool_decide_unpack _). vm_compute. exact I.
  - left. apply (bool_decide_unpack _). vm_compute. exact I.
Defined.

(** C4.  For a roster of two participants each of whom excludes the other,
    no attempt is accepted, whatever the random source: all 1000 attempts
    are abandoned and the generator throws its error; it never returns a
    mapping. *)
Theorem makeAssignments_mutual_exclusion random a b excl :
  b ∈ default [] (excl !! a) →
  a ∈ default [] (excl !! b) →
  (∀ shuffled mapping, runAttempt [a; b] excl shuffled ≠ Accepted mapping)
  ∧ makeAssignments random [a; b] excl = Thrown couldNotBuild
  ∧ (makeAssignmentsRun random [a; b] excl 0).1.2 = MAX_ATTEMPTS.
Proof.
  intros Hab Hba.
  assert (Hnone : ∀ shuffled mapping,
             runAttempt [a; b] excl shuffled ≠ Accepted mapping).
  { intros shuffled mapping (_ & _ & Hperm & Hpairs)%runAttempt_Accepted_valid.
    assert (Ha : mapping !! a ∈ [Some a; Some b]).
    { rewrite <-Hperm. set_solver. }
    apply elem_of_cons in Ha as [Ha|Ha%list_elem_of_singleton];
      apply Hpairs in Ha as [??]; done. }
  split; [done|].
  unfold makeAssignments.
  by rewrite (makeAssignmentsRun_Thrown random [a; b] excl Hnone).
Qed.

Lemma makeAssignments_mutual_exclusion_witness :
  let excl : gmap string (list string) :=
    {["Alice" := ["Bob"]; "Bob" := ["Alice"]]} in
  (∀ shuffled mapping,
      runAttempt ["Alice"; "Bob"] excl shuffled ≠ Accepted mapping)
  ∧ makeAssignments (λ k, k) ["Alice"; "Bob"] excl = Thrown couldNotBuild
  ∧ (makeAssignmentsRun (λ k, k) ["Alice"; "Bob"] excl 0).1.2 = MAX_ATTEMPTS.
Proof.
  apply (makeAssignments_mutual_exclusion (λ k, k) "Alice" "Bob");
    apply (bool_decide_unpack _); vm_compute; exact I.
Defined.

(** C5.  [makeAssignments] always comes to an end: the budget is 1000
    attempts, each of which calls [Math.random] once per position but one;
    either one of the attempts is accepted and its mapping returned, fewer
    than 1000 attempts having been abandoned before it, or all 1000 are
    abandoned and the error is thrown. *)
Theorem makeAssignments_terminates random names excl :
  (1000 ≤ MAX_ATTEMPTS)%nat
  ∧ ∃ result attempt calls,
      makeAssignmentsRun random names excl 0 = (result, attempt, calls)
      ∧ makeAssignments random names excl = result
      ∧ ((∃ mapping, result = Returned mapping
                     ∧ attempt < MAX_ATTEMPTS
                     ∧ calls = (attempt + 1) * (length names - 1))
         ∨ (result = Thrown couldNotBuild
            ∧ attempt = MAX_ATTEMPTS
            ∧ calls = MAX_ATTEMPTS * (length names - 1))).
Proof.
  split; [done|].
  unfold makeAssignments, makeAssignmentsRun.
  destruct (attemptLoop_spec random names excl MAX_ATTEMPTS 0 0)
    as [(n & m & sh & Hn & -> & _)| ->].
  - eexists _, _, _. split_and!; [done..|]. left. by exists m.
  - eexists _, _, _. split_and!; [done..|]. by right.
Qed.

(** C6, as the spec has it, fails for a roster with the empty name: a
    recipient that is the empty string is falsy, so [fixExclusions] and
    [validateAssignments] reject every candidate. *)
Lemma empty_name_never_assigned :
  NoDup [EmptyString; "Alice"]
  ∧ (2 ≤ length [EmptyString; "Alice"])%nat
  ∧ makeAssignments (λ k, k) [EmptyString; "Alice"] ∅ = Thrown couldNotBuild.
Proof.
  split_and!; [|done|by vm_compute].
  apply (bool_decide_unpack _). vm_compute. exact I.
Qed.

(** C6, amended.  For a roster of at least two distinct names, none of them
    empty or the name of a member inherited from [Object.prototype], and no
    exclusions, the first attempt is accepted, whatever the random source:
    [makeAssignments] returns a valid assignment. *)
Theorem makeAssignments_no_exclusions random names :
  plainNames names →
  NoDup names →
  (2 ≤ length names)%nat →
  EmptyString ∉ names →
  ∃ mapping,
    makeAssignmentsRun random names ∅ 0
    = (Returned mapping, 0, length names - 1)
    ∧ makeAssignments random names ∅ = Returned mapping
    ∧ validDerangement names ∅ mapping.
Proof.
  intros _ Hnd Htwo Hempty.
  destruct (shuffle_spec random names 0) as (shuffled & Hsh & Hperm).
  destruct (unfix_derangement names Hnd Htwo shuffled Hperm) as [_ Hfix].
  destruct (runAttempt_all_valid names ∅ shuffled) as [mapping Hrun];
    [done..| |].
  { apply Forall_forall.
    intros [g r] (i & g' & r' & Heq & Hg & Hr)%elem_of_lookup_zip_with.
    simplify_eq/=. apply validatePair_no_exclusions. intros ->.
    apply (Hfix i); [by eapply lookup_lt_Some|congruence]. }
  assert (Hloop : makeAssignmentsRun random names ∅ 0
                  = (Returned mapping, 0, length names - 1)).
  { unfold makeAssignmentsRun, MAX_ATTEMPTS.
    by apply attemptLoop_first with shuffled. }
  exists mapping. split_and!; [done| |by eapply runAttempt_Accepted_valid].
  unfold makeAssignments. by rewrite Hloop.
Qed.

Lemma makeAssignments_no_exclusions_witness :
  ∃ mapping,
    makeAssignmentsRun (λ _, 0) PARTICIPANTS ∅ 0
    = (Returned mapping, 0, length PARTICIPANTS - 1)
    ∧ makeAssignments (λ _, 0) PARTICIPANTS ∅ = Returned mapping
    ∧ validDerangement PARTICIPANTS ∅ mapping.
Proof.
  apply (makeAssignments_no_exclusions (λ _, 0) PARTICIPANTS).
  - unfold plainNames. apply (bool_decide_unpack _). vm_compute. exact I.
  - apply (bool_decide_unpack _). vm_compute. exact I.
  - simpl. lia.
  - apply (bool_decide_unpack _). vm_compute. exact I.
Defined.

(** C9, as stated, fails for a roster with the empty name: the candidate
    below reaches the repair pass with both of its pairings passing
    [validatePair], no swap is made, and [fixExclusions] returns false. *)
Lemma repair_returns_false :
  let names := [EmptyString; "Alice"] in
  let shuffled := ["Alice"; EmptyString] in
  let candidate := (pairUp ∅ (zip names (unfix names shuffled)) ∅).1 in
  shuffled ≡ₚ names
  ∧ repairAttempted (runAttempt names ∅ shuffled) = true
  ∧ candidate = {[EmptyString := "Alice"; "Alice" := EmptyString]}
  ∧ validatePair EmptyString "Alice" ∅ = true
  ∧ validatePair "Alice" EmptyString ∅ = true
  ∧ fixExclusions candidate names ∅ = (false, candidate).
Proof.
  cbv zeta. split_and!; [|by vm_compute..].
  apply (bool_decide_unpack _). vm_compute. exact I.
Qed.

(** C9, amended.  The repair pass is only reached with a candidate all of
    whose pairings pass [validatePair]; on it [fixExclusions] makes no swap
    and leaves the mapping as it is; it returns true when no name of the
    roster is empty, and when it returns false [validateAssignments] rejects
    the same mapping.  So [makeAssignments] returns what the same algorithm
    without the repair pass returns. *)
Theorem repair_pass_redundant random names excl shuffled :
  shuffled ≡ₚ names →
  repairAttempted (runAttempt names excl shuffled) = true →
  let candidate := (pairUp excl (zip names (unfix names shuffled)) ∅).1 in
  (∀ g r, candidate !! g = Some r → validatePair g r excl = true)
  ∧ repairLoop excl names (imap pair names) candidate = (true, candidate)
  ∧ (fixExclusions candidate names excl).2 = candidate
  ∧ (EmptyString ∉ names →
     fixExclusions candidate names excl = (true, candidate))
  ∧ ((fixExclusions candidate names excl).1 = false →
     validateAssignments candidate names excl = false)
  ∧ makeAssignments random names excl
    = makeAssignmentsWithoutRepair random names excl.
Proof.
  intros Hperm Hreached candidate.
  assert (Hpairs : pairUp excl (zip names (unfix names shuffled)) ∅
                   = (candidate, true)).
  { rewrite repairAttempted_ok, <-(pairUp_ok excl _ ∅) in Hreached.
    unfold candidate. by destruct (pairUp _ _ _) as [??]; simplify_eq/=. }
  pose proof Hpairs as [Hcand _]%pairUp_candidate.
  assert (Hvalid : ∀ g r, candidate !! g = Some r →
                          validatePair g r excl = true).
  { intros g r Hg. by apply Hcand. }
  rewrite (fixExclusions_candidate excl names candidate Hvalid).
  split_and!; [done|by apply repairLoop_candidate|done| | |].
  - intros Hempty. f_equal. apply forallb_forall. intros g Hg%list_elem_of_In.
    destruct (candidate_recipients names excl shuffled candidate g)
      as (r & -> & Hr); [done..|].
    simpl. apply negb_true_iff, bool_decide_eq_false_2. by intros ->.
  - simpl. intros Hevery.
    destruct (validateAssignments candidate names excl) eqn:Hval; [|done].
    apply validateAssignments_true in Hval as (recvs & Hall & _).
    apply Forall2_pairOk_truthy in Hall. congruence.
  - unfold makeAssignments, makeAssignmentsWithoutRepair, makeAssignmentsRun.
    by rewrite attemptLoop_without_repair.
Qed.

Lemma repair_pass_redundant_witness :
  let candidate :=
    (pairUp EXCLUSIONS (zip PARTICIPANTS (unfix PARTICIPANTS PARTICIPANTS))
       ∅).1 in
  fixExclusions candidate PARTICIPANTS EXCLUSIONS = (true, candidate)
  ∧ makeAssignments (λ _, 0) PARTICIPANTS EXCLUSIONS
    = makeAssignmentsWithoutRepair (λ _, 0) PARTICIPANTS EXCLUSIONS.
Proof.
  destruct (repair_pass_redundant (λ _, 0) PARTICIPANTS EXCLUSIONS
              PARTICIPANTS) as (_ & _ & _ & Htrue & _ & Heq).
  - reflexivity.
  - vm_compute. reflexivity.
  - split; [|exact Heq]. apply Htrue.
    apply (bool_decide_unpack _). vm_compute. exact I.
Defined.

(** ** validateAssignments on hand-made mappings *)




(** * Properties of the draw handler *)

Section StateInvariant.

(** A fresh state has a flag for every participant. *)
Lemma buildFreshState_ok random now state :
  buildFreshState random now = inl state → stateOk state.
Proof.
  unfold buildFreshState.
  destruct (makeAssignments _ _ _) as [mapping|]; [|done].
  intros [= <-] name Hname. cbn [revealed participants] in *.
  apply elem_of_dom. unfold PARTICIPANTS in Hname. set_solver.
Qed.

Lemma defaultRevealed_keeps flags name other b :
  flags !! other = Some (Some b) →
  defaultRevealed flags name !! other = Some (Some b).
Proof.
  intros Hother. unfold defaultRevealed.
  destruct (flags !! name) as [[b'|]|] eqn:Hname; [done|..];
    (rewrite lookup_insert_ne; [done|congruence]).
Qed.

Lemma defaultRevealed_sets flags name :
  ∃ b, defaultRevealed flags name !! name = Some (Some b).
Proof.
  unfold defaultRevealed.
  destruct (flags !! name) as [[b|]|] eqn:Hname;
    [by exists b|exists false; by rewrite lookup_insert_eq..].
Qed.

Lemma foldl_defaultRevealed names flags name :
  name ∈ names ∨ (∃ b, flags !! name = Some (Some b)) →
  ∃ b, foldl defaultRevealed flags names !! name = Some (Some b).
Proof.
  revert flags. induction names as [|first names IH]; intros flags; simpl.
  - intros [Hin|Hb]; [by apply elem_of_nil in Hin|done].
  - intros [[->|Hin]%elem_of_cons|[b Hb]]; apply IH.
    + right. apply defaultRevealed_sets.
    + by left.
    + right. exists b. by apply defaultRevealed_keeps.
Qed.

(** A state read from the state file has, once normalized, a flag for every
    participant. *)
Lemma normalizeState_ok rawState now : stateOk (normalizeState rawState now).
Proof.
  intros name Hname. unfold normalizeState in *. simpl in *.
  destruct (foldl_defaultRevealed (rawParticipants rawState)
              (rawRevealed rawState) name) as [b Hb]; [by left|].
  exists b. rewrite lookup_omap.
  by rewrite (map_lookup_filter_Some_2 _ _ name (Some b)).
Qed.

End StateInvariant.

Section Draw.

Context (trim : string → string).

(** Every way through the handler; [draw_cases] splits along them. *)
Ltac draw_cases :=
  unfold handleDraw, sendJson;
  repeat first
    [ progress simplify_eq/=
    | case_bool_decide
    | match goal with
      | |- context [match ?x with _ => _ end] => destruct x eqn:?
      | H : context [match ?x with _ => _ end] |- _ => destruct x eqn:?
      end ].

(** No rejection of [readJson] carries the status 200. *)
Ltac by_status :=
  match goal with
  | H : statusCodeOf ?err = 200 |- _ => destruct err; simpl in H; lia
  end.

(** The handler keeps a flag for every participant. *)
Lemma handleDraw_ok state method body now saveOk :
  stateOk state →
  stateOk (handleDraw trim state method body now saveOk).1.
Proof.
  intros Hok. draw_cases; try done.
  all: intros name Hname%Hok%elem_of_dom; apply elem_of_dom; simpl in *.
  all: set_solver.
Qed.

(** Whatever the request and its outcome, the handler leaves the roster,
    the exclusions, the assignments and the creation time as they are. *)
Lemma handleDraw_frame state method body now saveOk :
  let state' := (handleDraw trim state method body now saveOk).1 in
  participants state' = participants state
  ∧ exclusions state' = exclusions state
  ∧ assignments state' = assignments state
  ∧ createdAt state' = createdAt state.
Proof. draw_cases; done. Qed.

(** C8.  A draw that succeeds (status 200) sets the flag of the giver,
    appends one entry to the history, and changes nothing else: the
    assignments, the participants, the exclusions and the creation time of
    the state are those of before, and so are the flags of everybody else.
    The recipient disclosed is the one the assignments hold for the giver. *)
Theorem draw_keeps_assignments state method body now saveOk state' response :
  handleDraw trim state method body now saveOk = (state', Some response) →
  status response = 200 →
  ∃ giver recipient,
    giver ∈ participants state
    ∧ assignments state !! giver = Some recipient
    ∧ payload response
      = DrawJson giver recipient (length (getAvailableGivers state'))
          (length (participants state'))
    ∧ assignments state' = assignments state
    ∧ participants state' = participants state
    ∧ exclusions state' = exclusions state
    ∧ createdAt state' = createdAt state
    ∧ revealed state' = <[giver:=true]> (revealed state)
    ∧ history state'
      = (history state ++ [{| entryGiver := giver;
                              entryRecipient := recipient;
                              revealedAt := now |}])%list.
Proof.
  intros Hdraw Hstatus. revert Hdraw Hstatus.
  draw_cases; intros; simplify_eq/=; try lia; try by_status.
  by eexists _, _.
Qed.

End Draw.

Lemma exampleState_fresh :
  buildFreshState (λ _, 0) "2024-12-01T09:00:00.000Z" = inl exampleState.
Proof. by vm_compute. Qed.

Lemma draw_keeps_assignments_witness :
  let after :=
    (handleDraw (λ s, s) exampleState "POST" (Resolved (Some "Alice"))
       "2024-12-24T18:00:00.000Z" true).1 in
  assignments after = assignments exampleState
  ∧ participants after = participants exampleState
  ∧ exclusions after = exclusions exampleState
  ∧ createdAt after = createdAt exampleState
  ∧ revealed after = <["Alice":=true]> (revealed exampleState)
  ∧ history after = [{| entryGiver := "Alice"; entryRecipient := "Bob";
                        revealedAt := "2024-12-24T18:00:00.000Z" |}].
Proof.
  intros after.
  edestruct (draw_keeps_assignments (λ s, s) exampleState "POST"
               (Resolved (Some "Alice")) "2024-12-24T18:00:00.000Z" true)
    as (giver & recipient & _ & _ & Hpayload & Hrest).
  - reflexivity.
  - reflexivity.
  - injection Hpayload as <- <-. exact Hrest.
Defined.

(** Recording a draw keeps the state valid. *)
Lemma recordDraw_stateValid state giver recipient now :
  stateValid state → stateValid (recordDraw state giver recipient now).
Proof.
  intros (Hok & Hperm & Hvalid). split; [|done]. intros name Hname.
  cbn [recordDraw revealed participants] in *.
  destruct (decide (giver = name)) as [->|?];
    [by rewrite lookup_insert_eq|by rewrite lookup_insert_ne; auto].
Qed.

(** C10.  The rollback of a failed save is not safe against a draw handled
    meanwhile.  Alice's draw is recorded and its save awaited; Bob's draw is
    handled and recorded; Alice's save fails.  The handler sets Alice's flag
    back and takes the last entry off the history, which is Bob's: the state
    is left with Alice's entry in the history though her flag is false, and
    without an entry for Bob though his flag is set.  It is neither the
    state of before Alice's request nor the state with Bob's draw alone,
    which is what undoing Alice's draw would give. *)
Theorem failed_save_pops_other_entry :
  let alice :=
    drawBegin (λ s, s) exampleState "POST" (Resolved (Some "Alice"))
      "2024-12-24T18:00:00.000Z" in
  let bob :=
    drawBegin (λ s, s) alice.1 "POST" (Resolved (Some "Bob"))
      "2024-12-24T18:00:01.000Z" in
  let failed :=
    drawEnd bob.1
      {| pendingGiver := "Alice"; pendingRecipient := "Bob" |} false in
  alice.2 = inr {| pendingGiver := "Alice"; pendingRecipient := "Bob" |}
  ∧ bob.2 = inr {| pendingGiver := "Bob"; pendingRecipient := "Charlie" |}
  ∧ status failed.2 = 500
  ∧ revealed failed.1 !! "Alice" = Some false
  ∧ revealed failed.1 !! "Bob" = Some true
  ∧ history failed.1
    = [{| entryGiver := "Alice"; entryRecipient := "Bob";
          revealedAt := "2024-12-24T18:00:00.000Z" |}]
  ∧ history (recordDraw exampleState "Bob" "Charlie"
               "2024-12-24T18:00:01.000Z")
    = [{| entryGiver := "Bob"; entryRecipient := "Charlie";
          revealedAt := "2024-12-24T18:00:01.000Z" |}]
  ∧ failed.1 ≠ exampleState
  ∧ failed.1
    ≠ recordDraw exampleState "Bob" "Charlie" "2024-12-24T18:00:01.000Z".
Proof.
  cbv zeta. split_and!; [by vm_compute..| |];
    intros Heq; apply (f_equal history) in Heq; vm_compute in Heq;
    discriminate Heq.
Qed.

(** Without a request in between, the failed save still changes a state
    that has no flag for the giver (no state built or normalized by the
    server is such a state): the flag is there, and false, afterwards. *)
Remark failed_save_without_flag :
  let state := {| participants := ["Alice"; "Bob"];
                  exclusions := ∅;
                  assignments := {["Alice" := "Bob"; "Bob" := "Alice"]};
                  revealed := ∅;
                  history := [];
                  createdAt := "2024-12-01T09:00:00.000Z" |} in
  revealed (handleDraw (λ s, s) state "POST" (Resolved (Some "Alice"))
              "2024-12-24T18:00:00.000Z" false).1
  = {["Alice" := false]}.
Proof. by vm_compute. Qed.

(** * Further properties of the generator *)

(** X1.  [shuffle] returns a permutation of its argument, whatever the
    random source, and calls [Math.random] once for every position but the
    first. *)
Theorem shuffle_permutes random arr calls :
  ∃ shuffled,
    shuffle random arr calls = (shuffled, calls + (length arr - 1))
    ∧ shuffled ≡ₚ arr.
Proof. apply shuffle_spec. Qed.

(** X2.  The first inner loop of [makeAssignments]: for a roster of at least
    two distinct names it turns any permutation of the roster into a
    permutation that has no name at its own position. *)
Theorem unfix_removes_fixed_points names shuffled :
  NoDup names →
  (2 ≤ length names)%nat →
  shuffled ≡ₚ names →
  unfix names shuffled ≡ₚ names
  ∧ ∀ i name, names !! i = Some name → unfix names shuffled !! i ≠ Some name.
Proof.
  intros Hnd Htwo Hperm.
  destruct (unfix_derangement names Hnd Htwo shuffled Hperm) as [Hp Hfix].
  split; [done|]. intros i name Hi Hsame.
  apply (Hfix i); [by eapply lookup_lt_Some|congruence].
Qed.

Lemma unfix_removes_fixed_points_witness :
  unfix PARTICIPANTS PARTICIPANTS ≡ₚ PARTICIPANTS
  ∧ ∀ i name, PARTICIPANTS !! i = Some name →
              unfix PARTICIPANTS PARTICIPANTS !! i ≠ Some name.
Proof.
  apply (unfix_removes_fixed_points PARTICIPANTS PARTICIPANTS).
  - apply (bool_decide_unpack _). vm_compute. exact I.
  - simpl. lia.
  - reflexivity.
Defined.

(** X3.  For a roster of distinct, non-empty names, none the name of a
    member inherited from [Object.prototype], an attempt is decided by the
    pairing loop alone: when every pair passes [validatePair] the attempt is
    accepted, with the mapping that pairs each name with the shuffled entry
    at its position; otherwise it is discarded.  The repair pass and
    [validateAssignments] never turn such an attempt down. *)
Theorem attempt_decided_by_pairs names excl shuffled :
  plainNames names →
  NoDup names →
  EmptyString ∉ names →
  shuffled ≡ₚ names →
  if forallb (λ gr, validatePair gr.1 gr.2 excl)
       (zip names (unfix names shuffled))
  then ∃ mapping,
         runAttempt names excl shuffled = Accepted mapping
         ∧ ∀ i giver recv,
             names !! i = Some giver →
             unfix names shuffled !! i = Some recv →
             mapping !! giver = Some recv
  else ∃ mapping, runAttempt names excl shuffled = Discarded mapping.
Proof.
  intros _ Hnd Hempty Hperm.
  pose proof (repairAttempted_ok names excl shuffled) as Hreached.
  destruct (forallb _ _) eqn:Hall.
  - rewrite forallb_forall in Hall.
    destruct (runAttempt_all_valid names excl shuffled) as [mapping Hrun];
      [done..| |].
    { apply Forall_forall. intros gr Hgr%list_elem_of_In. by apply Hall. }
    exists mapping. split; [done|]. intros i giver recv Hg Hr.
    apply runAttempt_Accepted in Hrun as (_ & _ & [_ ->]%pairUp_true).
    rewrite (right_id_L ∅ (∪)). apply elem_of_list_to_map_1.
    + rewrite fmap_reverse, fst_zip, reverse_Permutation; [done|].
      by rewrite unfix_Permutation, Hperm.
    + apply elem_of_reverse, elem_of_lookup_zip_with. by exists i, giver, recv.
  - destruct (runAttempt names excl shuffled) as [m| | |]; try done.
    by exists m.
Qed.

Lemma attempt_decided_by_pairs_witness :
  ∃ mapping,
    runAttempt PARTICIPANTS EXCLUSIONS PARTICIPANTS = Accepted mapping
    ∧ ∀ i giver recv,
        PARTICIPANTS !! i = Some giver →
        unfix PARTICIPANTS PARTICIPANTS !! i = Some recv →
        mapping !! giver = Some recv.
Proof.
  apply (attempt_decided_by_pairs PARTICIPANTS EXCLUSIONS PARTICIPANTS).
  - unfold plainNames. apply (bool_decide_unpack _). vm_compute. exact I.
  - apply (bool_decide_unpack _). vm_compute. exact I.
  - apply (bool_decide_unpack _). vm_compute. exact I.
  - reflexivity.
Defined.

Section ValidateAssignmentsComplete.

Context (names : list string) (excl : gmap string (list string)).
Context (mapping : gmap string string).

Lemma not_banned_iff giver recv :
  recv ∉ bannedSet excl giver
  ↔ recv ≠ giver ∧ recv ∉ default [] (excl !! giver).
Proof.
  unfold bannedSet. rewrite elem_of_list_to_set, elem_of_cons. tauto.
Qed.

(** The recipients that [validateAssignments] has seen when it returns
    true. *)
Lemma validateAssignments_recipients :
  validateAssignments mapping names excl = true →
  ∃ recvs, Forall2 (pairOk names excl mapping) names recvs
           ∧ (λ p, mapping !! p) <$> names = Some <$> recvs
           ∧ recvs ≡ₚ names
           ∧ NoDup names.
Proof.
  intros (recvs & Hall & Hnd)%validateAssignments_true.
  assert (Hrecvs : (λ p, mapping !! p) <$> names = Some <$> recvs).
  { clear Hnd. induction Hall as [|g r ?? (Hg & _) _ IH]; [done|].
    by rewrite !fmap_cons, Hg, IH. }
  exists recvs. split_and!; [done..| |].
  - apply submseteq_length_Permutation.
    + apply NoDup_submseteq; [done|]. intros r [i Hi]%list_elem_of_lookup_1.
      by destruct (Forall2_lookup_r _ _ _ _ _ Hall Hi)
        as (g & _ & _ & _ & ? & _).
    + by rewrite (Forall2_length _ _ _ Hall).
  - apply (NoDup_fmap_1 (λ p, mapping !! p)). rewrite Hrecvs.
    by apply (NoDup_fmap_2 Some).
Qed.

Lemma all_Some_fmap (l : list (option string)) :
  (∀ x, x ∈ l → is_Some x) → ∃ k, l = Some <$> k.
Proof.
  induction l as [|[r|] l IH]; intros Hall.
  - by exists [].
  - destruct IH as [k ->]; [intros x Hx; apply Hall; by right|].
    by exists (r :: k).
  - by destruct (Hall None) as [??]; [left|].
Qed.

Lemma validateAssignments_complete :
  NoDup names →
  EmptyString ∉ names →
  ((λ p, mapping !! p) <$> names) ≡ₚ (Some <$> names) →
  (∀ p r, p ∈ names → mapping !! p = Some r →
          r ≠ p ∧ r ∉ default [] (excl !! p)) →
  validateAssignments mapping names excl = true.
Proof.
  intros Hnd Hempty Hperm Hpairs.
  destruct (all_Some_fmap ((λ p, mapping !! p) <$> names)) as [recvs Hrecvs].
  { intros x Hx. rewrite Hperm in Hx.
    apply list_elem_of_fmap in Hx as (r & -> & _). by eexists. }
  assert (Hin : ∀ r, r ∈ recvs → r ∈ names).
  { intros r Hr.
    assert (Some r ∈ Some <$> names) as (r' & [= ->] & ?)%list_elem_of_fmap;
      [|done].
    rewrite <-Hperm, Hrecvs. by apply list_elem_of_fmap_2. }
  apply validateAssignments_true. exists recvs. split.
  - apply Forall2_same_length_lookup_2.
    { by rewrite <-(length_fmap (λ p, mapping !! p)), Hrecvs, length_fmap. }
    intros i g r Hg Hr.
    assert (Hgr : mapping !! g = Some r).
    { assert (((λ p, mapping !! p) <$> names) !! i = Some (mapping !! g))
        as Hi by by rewrite list_lookup_fmap, Hg.
      rewrite Hrecvs, list_lookup_fmap, Hr in Hi. by simplify_eq/=. }
    assert (Hrn : r ∈ names) by (eapply Hin, list_elem_of_lookup_2; done).
    destruct (Hpairs g r) as [Hne Hex];
      [by eapply list_elem_of_lookup_2|done|].
    unfold pairOk. rewrite not_banned_iff.
    split_and!; [done|by intros ->|done|done|done|done].
  - apply (NoDup_fmap_1 Some). rewrite <-Hrecvs, Hperm.
    by apply (NoDup_fmap_2 Some).
Qed.

End ValidateAssignmentsComplete.

Lemma validateAssignments_spec names excl mapping :
  validateAssignments mapping names excl = true
  ↔ (NoDup names
     ∧ (EmptyString ∉ names)
     ∧ ((λ p, mapping !! p) <$> names) ≡ₚ (Some <$> names)
     ∧ ∀ p r, p ∈ names → mapping !! p = Some r →
              r ≠ p ∧ r ∉ default [] (excl !! p)).
Proof.
  split.
  - intros (recvs & Hall & Hrecvs & Hperm & Hnd)%validateAssignments_recipients.
    split_and!; [done| |by rewrite Hrecvs, Hperm|].
    + rewrite <-Hperm. intros [i Hi]%list_elem_of_lookup_1.
      by destruct (Forall2_lookup_r _ _ _ _ _ Hall Hi)
        as (g & _ & _ & ? & _).
    + intros p r Hp Hr.
      destruct (Forall2_pairOk_lookup _ _ _ _ _ _ Hall Hp)
        as (r' & _ & Hr' & _ & _ & Hne & Hban).
      assert (r' = r) as -> by congruence.
      apply not_banned_iff in Hban. tauto.
  - intros (Hnd & Hempty & Hperm & Hpairs).
    by apply validateAssignments_complete.
Qed.

(** X4.  For a roster no name of which is the name of a member inherited
    from [Object.prototype], [validateAssignments] returns true exactly for
    the valid assignments of the roster: the roster has no duplicates and no
    empty name, the recipients of the participants, in roster order, are a
    permutation of the roster, and no participant has themselves or one of
    their exclusions as recipient.  Entries of the mapping for other keys
    are not looked at. *)
Theorem validateAssignments_iff names excl mapping :
  plainNames names →
  validateAssignments mapping names excl = true
  ↔ (NoDup names
     ∧ (EmptyString ∉ names)
     ∧ ((λ p, mapping !! p) <$> names) ≡ₚ (Some <$> names)
     ∧ ∀ p r, p ∈ names → mapping !! p = Some r →
              r ≠ p ∧ r ∉ default [] (excl !! p)).
Proof. intros _. apply validateAssignments_spec. Qed.

Lemma validateAssignments_iff_witness :
  validateAssignments (cyclicShift PARTICIPANTS) PARTICIPANTS EXCLUSIONS = true
  ↔ (NoDup PARTICIPANTS
     ∧ (EmptyString ∉ PARTICIPANTS)
     ∧ ((λ p, cyclicShift PARTICIPANTS !! p) <$> PARTICIPANTS)
       ≡ₚ (Some <$> PARTICIPANTS)
     ∧ ∀ p r, p ∈ PARTICIPANTS → cyclicShift PARTICIPANTS !! p = Some r →
              r ≠ p ∧ r ∉ default [] (EXCLUSIONS !! p)).
Proof.
  apply (validateAssignments_iff PARTICIPANTS EXCLUSIONS
           (cyclicShift PARTICIPANTS)).
  unfold plainNames. apply (bool_decide_unpack _). vm_compute. exact I.
Defined.

(** X5.  A participant who excludes every other participant makes the
    roster infeasible: whatever the random source, no attempt is accepted
    and [makeAssignments] throws after its 1000 attempts.  No name of the
    roster is the name of a member inherited from [Object.prototype]. *)
Theorem makeAssignments_excluded_from_all random names excl p :
  plainNames names →
  p ∈ names →
  Forall (λ q, q = p ∨ q ∈ default [] (excl !! p)) names →
  makeAssignments random names excl = Thrown couldNotBuild
  ∧ (makeAssignmentsRun random names excl 0).1.2 = MAX_ATTEMPTS.
Proof.
  intros _ Hp Hall.
  assert (Hrun : makeAssignmentsRun random names excl 0
                 = (Thrown couldNotBuild, MAX_ATTEMPTS,
                    MAX_ATTEMPTS * (length names - 1))).
  { apply makeAssignmentsRun_Thrown.
    intros shuffled mapping
      (_ & Hdom & Hperm & Hpairs)%runAttempt_Accepted_valid.
    assert (is_Some (mapping !! p)) as [r Hr].
    { apply elem_of_dom. rewrite Hdom. by apply elem_of_list_to_set. }
    assert (Hrn : r ∈ names).
    { assert (Some r ∈ Some <$> names)
        as (r' & [= ->] & ?)%list_elem_of_fmap; [|done].
      rewrite <-Hperm, <-Hr. by apply (list_elem_of_fmap_2 (λ q, mapping !! q)). }
    destruct (Hpairs p r Hr) as [Hne Hex].
    rewrite Forall_forall in Hall. by destruct (Hall r Hrn). }
  unfold makeAssignments. by rewrite Hrun.
Qed.

Lemma makeAssignments_excluded_from_all_witness :
  let excl : gmap string (list string) :=
    {["Alice" := ["Bob"; "Charlie"]]} in
  makeAssignments (λ k, k) ["Alice"; "Bob"; "Charlie"] excl
  = Thrown couldNotBuild
  ∧ (makeAssignmentsRun (λ k, k) ["Alice"; "Bob"; "Charlie"] excl 0).1.2
    = MAX_ATTEMPTS.
Proof.
  apply (makeAssignments_excluded_from_all (λ k, k) _ _ "Alice");
    unfold plainNames; apply (bool_decide_unpack _); vm_compute; exact I.
Defined.

Section RepairPass.

Context (excl : gmap string (list string)).

Lemma lookup_assign k v (map : gmap string string) k' :
  assign k v map !! k' = if decide (k = k') then v else map !! k'.
Proof.
  unfold assign. destruct v as [r|]; case_decide; subst.
  - by rewrite lookup_insert_eq.
  - by rewrite lookup_insert_ne.
  - by rewrite lookup_delete_eq.
  - by rewrite lookup_delete_ne.
Qed.

(** What the inner loop has checked when it swaps. *)
Lemma findSwap_Some i giver recv map others map' :
  findSwap excl i giver recv map others = Some map' →
  ∃ other,
    other ∈ others.*2
    ∧ other ≠ giver
    ∧ isBanned excl giver (map !! other) = false
    ∧ isBanned excl other recv = false
    ∧ Some giver ≠ map !! other
    ∧ Some other ≠ recv
    ∧ map' = assign other recv (assign giver (map !! other) map).
Proof.
  induction others as [|[j other] others IH]; simpl; [done|].
  intros Hfind.
  assert (Hrest : findSwap excl i giver recv map others = Some map' →
                  ∃ other', other' ∈ other :: others.*2
                    ∧ other' ≠ giver
                    ∧ isBanned excl giver (map !! other') = false
                    ∧ isBanned excl other' recv = false
                    ∧ Some giver ≠ map !! other'
                    ∧ Some other' ≠ recv
                    ∧ map' = assign other' recv
                               (assign giver (map !! other') map)).
  { intros (o & Ho & Hrest)%IH. exists o. split; [by right|done]. }
  case_bool_decide; [by apply Hrest|].
  destruct (bool_decide (other = giver) || _) eqn:Hskip; [by apply Hrest|].
  apply orb_false_iff in Hskip as [Hne%bool_decide_eq_false _].
  destruct (negb _ && _ && _ && _) eqn:Hcond; [|by apply Hrest].
  repeat (apply andb_true_iff in Hcond as [Hcond ?]).
  simplify_eq/=. exists other.
  repeat match goal with
         | H : negb _ = true |- _ => apply negb_true_iff in H
         | H : bool_decide _ = false |- _ => apply bool_decide_eq_false in H
         end.
  split_and!; [by left|done..].
Qed.

(** A swap leaves both of its givers with a pairing that is in order, and
    touches no other giver. *)
Lemma swap_pairFine giver other map g :
  other ≠ giver →
  isBanned excl giver (map !! other) = false →
  isBanned excl other (map !! giver) = false →
  Some giver ≠ map !! other →
  Some other ≠ map !! giver →
  g = giver ∨ g = other ∨ pairFine excl map g →
  pairFine excl (assign other (map !! giver) (assign giver (map !! other) map)) g.
Proof.
  intros Hne Hb1 Hb2 Hs1 Hs2 Hg. unfold pairFine.
  rewrite !lookup_assign.
  destruct (decide (other = g)) as [<-|Hog].
  { by rewrite Hb2, bool_decide_eq_false_2. }
  destruct (decide (giver = g)) as [<-|Hgg].
  { by rewrite Hb1, bool_decide_eq_false_2. }
  by destruct Hg as [->|[->|Hg]].
Qed.

Lemma repairLoop_pairFine names todo map map' (seen : list string) :
  repairLoop excl names todo map = (true, map') →
  (∀ g, g ∈ seen → pairFine excl map g) →
  ∀ g, g ∈ seen ∨ g ∈ todo.*2 → pairFine excl map' g.
Proof.
  revert map seen.
  induction todo as [|[i giver] todo IH]; intros map seen Hloop Hseen g Hg;
    simpl in *.
  - simplify_eq. destruct Hg as [Hg|Hg]; [by apply Hseen|].
    by apply elem_of_nil in Hg.
  - destruct (isBanned excl giver (map !! giver)
              || bool_decide (Some giver = map !! giver)) eqn:Hbad.
    + destruct (findSwap _ _ _ _ _ _) as [swapped|] eqn:Hfind; [|done].
      apply findSwap_Some in Hfind
        as (other & _ & Hne & Hb1 & Hb2 & Hs1 & Hs2 & ->).
      apply (IH _ (giver :: seen) Hloop).
      * intros g' Hg'. apply swap_pairFine; try done.
        apply elem_of_cons in Hg' as [->|Hg']; [by left|].
        right. right. by apply Hseen.
      * rewrite elem_of_cons in Hg. rewrite elem_of_cons. tauto.
    + apply (IH _ (giver :: seen) Hloop).
      * intros g' [->|Hg']%elem_of_cons; [done|by apply Hseen].
      * rewrite elem_of_cons in Hg. rewrite elem_of_cons. tauto.
Qed.

Lemma imap_pair_snd (l : list string) : (imap pair l).*2 = l.
Proof.
  rewrite fmap_imap. rewrite (imap_ext _ (λ _ x, x)) by done.
  induction l as [|x l IH]; [done|]. rewrite imap_cons. f_equal.
  by rewrite <-IH at 2.
Qed.

End RepairPass.

Lemma fixExclusions_pairs_of_true map names excl map' :
  fixExclusions map names excl = (true, map') →
  ∀ name, name ∈ names →
    ∃ recv, map' !! name = Some recv
            ∧ recv ≠ EmptyString
            ∧ validatePair name recv excl = true.
Proof.
  unfold fixExclusions.
  destruct (repairLoop _ _ _ _) as [[|] repaired] eqn:Hloop; [|done].
  intros [= Hevery <-] name Hname.
  pose proof (repairLoop_pairFine excl names _ _ _ [] Hloop) as Hfine.
  specialize (Hfine ltac:(by intros ? ?%elem_of_nil) name).
  rewrite imap_pair_snd in Hfine. specialize (Hfine (or_intror Hname)).
  rewrite forallb_forall in Hevery.
  specialize (Hevery name (proj1 (list_elem_of_In _ _) Hname)).
  unfold pairFine, isBanned, has, truthy in *.
  destruct (repaired !! name) as [recv|]; [|done].
  apply orb_false_iff in Hfine as [Hban%bool_decide_eq_false _].
  apply andb_true_iff in Hevery
    as [Hne%negb_true_iff%bool_decide_eq_false
        Hself%negb_true_iff%bool_decide_eq_false].
  exists recv. split_and!; [done..|].
  apply validatePair_true. split; [congruence|done].
Qed.

(** X6.  When [fixExclusions] returns true, every participant of the roster
    has, in the map it leaves, a non-empty recipient that passes
    [validatePair]: not the participant and none of their exclusions. *)
Theorem fixExclusions_true_pairs map names excl map' :
  fixExclusions map names excl = (true, map') →
  ∀ name, name ∈ names →
    ∃ recv, map' !! name = Some recv
            ∧ recv ≠ EmptyString
            ∧ validatePair name recv excl = true.
Proof. apply fixExclusions_pairs_of_true. Qed.

Lemma fixExclusions_true_pairs_witness :
  ∃ recv,
    ({["Alice" := "Danielle"; "Bob" := "Alice"; "Charlie" := "Bob";
       "Danielle" := "Charlie"]} : gmap string string) !! "Alice" = Some recv
    ∧ recv ≠ EmptyString
    ∧ validatePair "Alice" recv {["Alice" := ["Bob"]]} = true.
Proof.
  apply (fixExclusions_true_pairs
           {["Alice" := "Bob"; "Bob" := "Alice"; "Charlie" := "Danielle";
             "Danielle" := "Charlie"]}
           ["Alice"; "Bob"; "Charlie"; "Danielle"]).
  - vm_compute. reflexivity.
  - apply (bool_decide_unpack _). vm_compute. exact I.
Defined.

Section RepairKeepsRecipients.

Context (excl : gmap string (list string)) (names : list string).
Hypothesis names_NoDup : NoDup names.

(** Reading a function off the roster after two of its values have changed
    places gives the same values, in another order. *)
Lemma fmap_exchange (f f' : string → option string) g o :
  g ∈ names → o ∈ names → g ≠ o →
  f' g = f o → f' o = f g →
  (∀ k, k ≠ g → k ≠ o → f' k = f k) →
  f' <$> names ≡ₚ f <$> names.
Proof using names_NoDup.
  intros Hg Ho Hne Hfg Hfo Hrest.
  apply elem_of_Permutation in Hg as [rest1 Hperm1].
  assert (Ho' : o ∈ rest1).
  { rewrite Hperm1 in Ho. by apply elem_of_cons in Ho as [->|?]. }
  apply elem_of_Permutation in Ho' as [rest Hperm2].
  assert (Hperm : names ≡ₚ g :: o :: rest) by by rewrite Hperm1, Hperm2.
  assert (Hnd : NoDup (g :: o :: rest)) by by rewrite <-Hperm.
  apply NoDup_cons in Hnd as [Hg' [Ho'' _]%NoDup_cons].
  assert (f' <$> rest = f <$> rest) as Hsame.
  { apply Forall_fmap_ext, Forall_forall. intros k Hk.
    apply Hrest; intros ->; [|done]. apply Hg'. by right. }
  rewrite Hperm, !fmap_cons, Hfg, Hfo, Hsame. apply Permutation_swap.
Qed.

Lemma repairLoop_recipients todo map returned map' :
  (∀ g, g ∈ todo.*2 → g ∈ names) →
  (∀ g, g ∈ names → is_Some (map !! g)) →
  repairLoop excl names todo map = (returned, map') →
  ((λ p, map' !! p) <$> names) ≡ₚ ((λ p, map !! p) <$> names)
  ∧ ∀ g, g ∈ names → is_Some (map' !! g).
Proof using names_NoDup.
  revert map.
  induction todo as [|[i giver] todo IH]; intros map Htodo Hdom Hloop;
    simpl in *.
  - by simplify_eq.
  - assert (Hrest : ∀ g, g ∈ todo.*2 → g ∈ names).
    { intros g Hg. apply Htodo. by right. }
    destruct (isBanned excl giver (map !! giver)
              || bool_decide (Some giver = map !! giver)) eqn:Hbad;
      [|by apply IH].
    destruct (findSwap _ _ _ _ _ _) as [swapped|] eqn:Hfind;
      [|by simplify_eq].
    apply findSwap_Some in Hfind as (other & Ho & Hne & _ & _ & _ & _ & ->).
    rewrite imap_pair_snd in Ho.
    assert (Hgiver : giver ∈ names) by (apply Htodo; by left).
    set (swapped := assign other (map !! giver)
                      (assign giver (map !! other) map)) in *.
    assert (Hlookup : ∀ k, swapped !! k
                           = if decide (other = k) then map !! giver
                             else if decide (giver = k) then map !! other
                                  else map !! k).
    { intros k. unfold swapped. by rewrite !lookup_assign. }
    destruct (IH swapped Hrest) as [Hperm Hdom']; [|done|].
    { intros g Hg. rewrite Hlookup. repeat case_decide; by apply Hdom. }
    split; [|done]. rewrite Hperm.
    apply (fmap_exchange _ _ giver other); [done..|by apply not_eq_sym| | |].
    + rewrite Hlookup. by rewrite decide_False, decide_True.
    + rewrite Hlookup. by rewrite decide_True.
    + intros k Hk1 Hk2. rewrite Hlookup.
      by rewrite !decide_False by by apply not_eq_sym.
Qed.

End RepairKeepsRecipients.

Lemma all_present (map : gmap string string) names g :
  ((λ p, map !! p) <$> names) ≡ₚ (Some <$> names) →
  g ∈ names → is_Some (map !! g).
Proof.
  intros Hperm Hg.
  assert (map !! g ∈ Some <$> names) as (r & -> & _)%list_elem_of_fmap;
    [|by eexists].
  rewrite <-Hperm. by apply (list_elem_of_fmap_2 (λ p, map !! p)).
Qed.

(** X7.  The repair pass keeps a permutation a permutation: when the
    recipients of a roster of distinct, non-empty names are a permutation of
    the roster and [fixExclusions] returns true, the map it leaves has the
    same recipients, exchanged between givers, and passes
    [validateAssignments]. *)
Theorem fixExclusions_repairs_permutation map names excl map' :
  NoDup names →
  EmptyString ∉ names →
  ((λ p, map !! p) <$> names) ≡ₚ (Some <$> names) →
  fixExclusions map names excl = (true, map') →
  ((λ p, map' !! p) <$> names) ≡ₚ ((λ p, map !! p) <$> names)
  ∧ validateAssignments map' names excl = true.
Proof.
  intros Hnd Hempty Hperm Hfix.
  pose proof (fixExclusions_pairs_of_true _ _ _ _ Hfix) as Hpairs.
  unfold fixExclusions in Hfix.
  destruct (repairLoop _ _ _ _) as [[|] repaired] eqn:Hloop; [|done].
  injection Hfix as _ <-.
  destruct (repairLoop_recipients excl names Hnd _ _ _ _
              ltac:(by rewrite imap_pair_snd)
              (λ g, all_present map names g Hperm) Hloop) as [Hsame _].
  split; [done|].
  apply validateAssignments_complete; [done..|by rewrite Hsame|].
  intros p r Hp Hr. destruct (Hpairs p Hp) as (r' & Hr' & _ & Hok).
  assert (r' = r) as -> by congruence.
  apply validatePair_true in Hok as [Hne Hban%not_banned_iff]. tauto.
Qed.

Lemma fixExclusions_repairs_permutation_witness :
  let names := ["Alice"; "Bob"; "Charlie"; "Danielle"] in
  let excl : gmap string (list string) := {["Alice" := ["Bob"]]} in
  let map : gmap string string :=
    {["Alice" := "Bob"; "Bob" := "Alice"; "Charlie" := "Danielle";
      "Danielle" := "Charlie"]} in
  let map' : gmap string string :=
    {["Alice" := "Danielle"; "Bob" := "Alice"; "Charlie" := "Bob";
      "Danielle" := "Charlie"]} in
  ((λ p, map' !! p) <$> names) ≡ₚ ((λ p, map !! p) <$> names)
  ∧ validateAssignments map' names excl = true.
Proof.
  apply fixExclusions_repairs_permutation.
  - apply (bool_decide_unpack _). vm_compute. exact I.
  - apply (bool_decide_unpack _). vm_compute. exact I.
  - apply (bool_decide_unpack _). vm_compute. exact I.
  - vm_compute. reflexivity.
Defined.

Section ShuffleReach.

Lemma swap_take i j m (arr : list string) :
  i < m → j < m → take m (swap i j arr) = swap i j (take m arr).
Proof.
  intros Hi Hj. unfold swap. rewrite !lookup_take_lt by done.
  destruct (arr !! i) as [x|]; [|done].
  destruct (arr !! j) as [y|]; [|done].
  by rewrite !take_insert_lt by done.
Qed.

Lemma swap_drop i j m (arr : list string) :
  i < m → j < m → drop m (swap i j arr) = drop m arr.
Proof.
  intros Hi Hj. unfold swap.
  destruct (arr !! i) as [x|]; [|done].
  destruct (arr !! j) as [y|]; [|done].
  by rewrite !drop_insert_lt by done.
Qed.

Lemma swap_lookup_l i j (arr : list string) x :
  i < length arr → arr !! j = Some x → swap i j arr !! i = Some x.
Proof.
  intros Hi Hj. unfold swap.
  destruct (lookup_lt_is_Some_2 arr i Hi) as [y Hy]. rewrite Hy, Hj.
  destruct (decide (i = j)) as [->|Hne].
  - rewrite list_lookup_insert_eq by (rewrite length_insert; lia). congruence.
  - rewrite list_lookup_insert_ne by done.
    by rewrite list_lookup_insert_eq.
Qed.

(** The choices of [Math.random] that lead the shuffle to a given order. *)
Lemma shuffleFrom_reaches i (arr target : list string) :
  i < length arr →
  take (S i) arr ≡ₚ take (S i) target →
  drop (S i) arr = drop (S i) target →
  ∃ choices : list nat,
    ∀ random calls,
      (∀ t, t < i → random (calls + t) = choices !!! t) →
      (shuffleFrom random i arr calls).1 = target.
Proof.
  revert arr. induction i as [|i IH]; intros arr Hi Htake Hdrop.
  - exists []. intros random calls _. cbn [shuffleFrom]. unfold ret.
    destruct arr as [|x arr]; [simpl in Hi; lia|].
    destruct target as [|y target]; cbn [take drop] in *;
      rewrite ?take_0, ?drop_0 in *.
    + by apply Permutation_nil_r in Htake.
    + apply Permutation_singleton_inj in Htake. by subst.
  - assert (Hlen : (S (S i) ≤ length target)%nat).
    { apply Permutation_length in Htake. rewrite !length_take in Htake. lia. }
    destruct (lookup_lt_is_Some_2 target (S i)) as [x Hx]; [lia|].
    assert (x ∈ take (S (S i)) arr) as (j & Hj & Hlt)%elem_of_take.
    { rewrite Htake. apply elem_of_take. exists (S i). split; [done|lia]. }
    set (arr' := swap (S i) j arr).
    assert (Hx' : arr' !! S i = Some x) by by apply swap_lookup_l.
    destruct (IH arr') as [choices Hchoices].
    + unfold arr'. rewrite swap_length. lia.
    + apply (Permutation_app_inv_r [x]).
      rewrite <-(take_S_r arr' (S i) x), <-(take_S_r target (S i) x) by done.
      unfold arr'. rewrite swap_take by lia. by rewrite swap_Permutation.
    + rewrite (drop_S arr' x (S i)), (drop_S target x (S i)) by done.
      f_equal. unfold arr'. by rewrite swap_drop by lia.
    + exists (j :: choices). intros random calls Hrandom.
      cbn [shuffleFrom]. unfold bind, randomBelow.
      pose proof (Hrandom 0 ltac:(lia)) as Hfirst.
      rewrite Nat.add_0_r in Hfirst. rewrite Hfirst.
      change ((j :: choices) !!! 0) with j.
      rewrite Nat.mod_small by lia.
      apply Hchoices. intros t Ht.
      replace (S calls + t) with (calls + S t) by lia.
      by rewrite Hrandom by lia.
Qed.

End ShuffleReach.

(** X21.  The shuffle can return every order: for each permutation of the
    array there is a behaviour of the random source under which [shuffle]
    returns it. *)
Theorem shuffle_reaches_every_permutation (arr target : list string) :
  target ≡ₚ arr →
  ∃ random, (shuffle random arr 0).1 = target.
Proof.
  intros Hperm. pose proof (Permutation_length Hperm) as Hlen.
  destruct arr as [|x arr].
  { apply Permutation_nil_r in Hperm as ->. by exists (λ _, 0). }
  destruct (shuffleFrom_reaches (length (x :: arr) - 1) (x :: arr) target)
    as [choices Hchoices].
  - simpl. lia.
  - rewrite !take_ge by (simpl in *; lia). done.
  - rewrite !drop_ge by (simpl in *; lia). done.
  - exists (λ k, choices !!! k). by apply Hchoices.
Qed.

Lemma shuffle_reaches_every_permutation_witness :
  ∃ random,
    (shuffle random ["Alice"; "Bob"; "Charlie"] 0).1
    = ["Charlie"; "Alice"; "Bob"].
Proof.
  apply shuffle_reaches_every_permutation.
  apply (bool_decide_unpack _). vm_compute. exact I.
Defined.

(** * Further properties of the server *)

Section LoadState.

Lemma sameEntries_eq (l k : list string) :
  length l = length k →
  forallb (λ entries, bool_decide (entries.1 = entries.2)) (zip l k) = true
  ↔ l = k.
Proof.
  revert k. induction l as [|x l IH]; intros [|y k] Hlen; simplify_eq/=;
    [done|].
  rewrite andb_true_iff, bool_decide_eq_true, IH by done. naive_solver.
Qed.

Lemma sortStrings_Permutation (a b : list string) :
  sortStrings a = sortStrings b ↔ a ≡ₚ b.
Proof.
  unfold sortStrings. split.
  - intros Hsort.
    by rewrite <-(merge_sort_Permutation String.le a), Hsort,
      merge_sort_Permutation.
  - intros Hperm. apply (Sorted_unique String.le).
    + apply (Sorted_merge_sort String.le).
    + apply (Sorted_merge_sort String.le).
    + by rewrite !merge_sort_Permutation.
Qed.

Lemma arrayEqualIgnoreOrder_true a b :
  arrayEqualIgnoreOrder a b = true ↔ a ≡ₚ b.
Proof.
  unfold arrayEqualIgnoreOrder. case_bool_decide as Hlen; simpl.
  - rewrite sameEntries_eq, sortStrings_Permutation; [done|].
    unfold sortStrings. by rewrite !merge_sort_Permutation.
  - split; [done|]. intros Hperm. destruct Hlen. by rewrite Hperm.
Qed.

End LoadState.

(** X8.  [arrayEqualIgnoreOrder] returns true exactly when its two arrays
    hold the same strings, each as often in the one as in the other; the
    order of the entries plays no part. *)
Theorem arrayEqualIgnoreOrder_iff a b :
  arrayEqualIgnoreOrder a b = true ↔ a ≡ₚ b.
Proof. apply arrayEqualIgnoreOrder_true. Qed.

(** X9.  [isValidState] accepts a candidate exactly when its roster is the
    configured one up to order and its assignments are a valid assignment of
    that roster under the exclusions stored with it (none, when the file has
    no exclusions). *)
Theorem isValidState_iff candidate :
  isValidState candidate = true
  ↔ rawParticipants candidate ≡ₚ PARTICIPANTS
    ∧ ((λ p, rawAssignments candidate !! p) <$> rawParticipants candidate)
      ≡ₚ (Some <$> rawParticipants candidate)
    ∧ ∀ p r,
        p ∈ rawParticipants candidate →
        rawAssignments candidate !! p = Some r →
        r ≠ p ∧ r ∉ default [] (default ∅ (rawExclusions candidate) !! p).
Proof.
  unfold isValidState.
  destruct (arrayEqualIgnoreOrder _ _) eqn:Hroster; simpl.
  - apply arrayEqualIgnoreOrder_true in Hroster.
    rewrite validateAssignments_spec. split; [naive_solver|].
    intros (_ & Hperm & Hpairs). split_and!; [| |done..].
    + rewrite Hroster. apply (bool_decide_unpack _). vm_compute. exact I.
    + rewrite Hroster. apply (bool_decide_unpack _). vm_compute. exact I.
  - split; [done|]. intros [Hperm _].
    apply arrayEqualIgnoreOrder_true in Hperm. congruence.
Qed.

Section NormalizeState.

Lemma defaultRevealed_lookup flags first name :
  defaultRevealed flags first !! name
  = if decide (first = name) then Some (Some (flagOf flags name))
    else flags !! name.
Proof.
  unfold defaultRevealed, flagOf. case_decide as Hname; subst.
  - destruct (flags !! name) as [[b|]|] eqn:Hflag;
      by rewrite ?lookup_insert_eq.
  - destruct (flags !! first) as [[b|]|]; by rewrite ?lookup_insert_ne.
Qed.

Lemma foldl_defaultRevealed_lookup names flags name :
  foldl defaultRevealed flags names !! name
  = if decide (name ∈ names) then Some (Some (flagOf flags name))
    else flags !! name.
Proof.
  revert flags.
  induction names as [|first names IH]; intros flags; cbn [foldl].
  - case_decide as Hin; [by apply elem_of_nil in Hin|done].
  - rewrite IH. unfold flagOf at 1. rewrite !defaultRevealed_lookup.
    destruct (decide (first = name)) as [->|Hne].
    + rewrite (decide_True (P := name ∈ name :: names)) by by left.
      by case_decide.
    + case_decide as Hin.
      * by rewrite (decide_True (P := name ∈ first :: names)) by by right.
      * rewrite (decide_False (P := name ∈ first :: names)); [done|].
        rewrite elem_of_cons. naive_solver.
Qed.

Lemma normalizeState_revealed rawState now name :
  revealed (normalizeState rawState now) !! name
  = if decide (name ∈ rawParticipants rawState)
    then Some (flagOf (rawRevealed rawState) name)
    else None.
Proof.
  unfold normalizeState. simpl.
  rewrite lookup_omap, map_lookup_filter, foldl_defaultRevealed_lookup.
  case_decide as Hin; simpl.
  - by rewrite option_guard_True.
  - destruct (rawRevealed rawState !! name) as [flag|]; [|done]. simpl.
    by rewrite option_guard_False.
Qed.

End NormalizeState.

(** X10.  After [normalizeState] the flags are exactly those of the
    participants: a participant keeps the boolean the file has for them and
    gets false when the file has none or something that is not a boolean;
    entries of the file for names outside the roster are dropped.  Roster,
    assignments and history are those of the file. *)
Theorem normalizeState_flags rawState now name :
  revealed (normalizeState rawState now) !! name
  = (if decide (name ∈ rawParticipants rawState)
     then Some (match rawRevealed rawState !! name with
                | Some (Some b) => b
                | _ => false
                end)
     else None)
  ∧ participants (normalizeState rawState now) = rawParticipants rawState
  ∧ assignments (normalizeState rawState now) = rawAssignments rawState
  ∧ history (normalizeState rawState now)
    = default [] (rawHistory rawState).
Proof. split; [apply normalizeState_revealed|done]. Qed.

Section FreshState.

Lemma PARTICIPANTS_NoDup : NoDup PARTICIPANTS.
Proof. apply (bool_decide_unpack _). vm_compute. exact I. Qed.

Lemma PARTICIPANTS_named : EmptyString ∉ PARTICIPANTS.
Proof. apply (bool_decide_unpack _). vm_compute. exact I. Qed.

(** Without exclusions the first attempt is accepted. *)
Lemma makeAssignments_first_attempt random names :
  NoDup names →
  (2 ≤ length names)%nat →
  EmptyString ∉ names →
  ∃ mapping shuffled,
    makeAssignments random names ∅ = Returned mapping
    ∧ runAttempt names ∅ shuffled = Accepted mapping.
Proof.
  intros Hnd Htwo Hempty.
  destruct (shuffle_spec random names 0) as (shuffled & Hsh & Hperm).
  destruct (unfix_derangement names Hnd Htwo shuffled Hperm) as [_ Hfix].
  destruct (runAttempt_all_valid names ∅ shuffled) as [mapping Hrun];
    [done..| |].
  { apply Forall_forall.
    intros [g r] (i & g' & r' & Heq & Hg & Hr)%elem_of_lookup_zip_with.
    simplify_eq/=. apply validatePair_no_exclusions. intros ->.
    apply (Hfix i); [by eapply lookup_lt_Some|congruence]. }
  exists mapping, shuffled. split; [|done].
  unfold makeAssignments, makeAssignmentsRun, MAX_ATTEMPTS.
  by rewrite (attemptLoop_first random names ∅ _ _ _ _ _ _ Hsh Hrun).
Qed.

Lemma buildFreshState_inl random now :
  ∃ mapping,
    buildFreshState random now
    = inl {| participants := PARTICIPANTS;
             exclusions := EXCLUSIONS;
             assignments := mapping;
             revealed :=
               list_to_map ((λ name, (name, false)) <$> PARTICIPANTS);
             history := [];
             createdAt := now |}
    ∧ validateAssignments mapping PARTICIPANTS EXCLUSIONS = true.
Proof.
  destruct (makeAssignments_first_attempt random PARTICIPANTS)
    as (mapping & shuffled & Hmake & Hrun);
    [apply PARTICIPANTS_NoDup|simpl; lia|apply PARTICIPANTS_named|].
  exists mapping. unfold buildFreshState, EXCLUSIONS. rewrite Hmake.
  split; [done|]. by apply runAttempt_Accepted in Hrun as [? _].
Qed.

Lemma buildFreshState_stateValid random now state :
  buildFreshState random now = inl state → stateValid state.
Proof.
  intros Hfresh. split; [by eapply buildFreshState_ok|].
  destruct (buildFreshState_inl random now) as (mapping & Heq & Hvalid).
  rewrite Heq in Hfresh. by simplify_eq/=.
Qed.

Lemma normalizeState_stateValid candidate now :
  isValidState candidate = true → stateValid (normalizeState candidate now).
Proof.
  intros Hvalid. split; [apply normalizeState_ok|].
  unfold isValidState in Hvalid.
  destruct (arrayEqualIgnoreOrder _ _) eqn:Hroster; [|done].
  by apply arrayEqualIgnoreOrder_true in Hroster.
Qed.

Lemma resetState_fresh random now saveOk state :
  ∃ fresh, buildFreshState random now = inl fresh
           ∧ resetState random now saveOk state = (Some fresh, saveOk).
Proof.
  destruct (buildFreshState_inl random now) as (mapping & Heq & _).
  eexists. split; [done|]. unfold resetState. by rewrite Heq.
Qed.

End FreshState.

(** X11.  With the roster and the (empty) exclusions of the server,
    [buildFreshState] never fails, whatever the random source: the state it
    builds has the configured roster, a flag set to false for every
    participant, an empty history, everybody still to draw, and assignments
    that pass [validateAssignments]. *)
Theorem buildFreshState_always random now :
  ∃ state,
    buildFreshState random now = inl state
    ∧ participants state = PARTICIPANTS
    ∧ (∀ name, name ∈ PARTICIPANTS → revealed state !! name = Some false)
    ∧ history state = []
    ∧ getAvailableGivers state = PARTICIPANTS
    ∧ validateAssignments (assignments state) PARTICIPANTS EXCLUSIONS = true.
Proof.
  destruct (buildFreshState_inl random now) as (mapping & -> & Hvalid).
  eexists. split_and!; [done..| |done|done|done].
  intros name Hname. cbn [revealed].
  apply elem_of_list_to_map_1.
  - rewrite <-list_fmap_compose.
    rewrite (list_fmap_ext _ id PARTICIPANTS) by done.
    rewrite list_fmap_id. apply PARTICIPANTS_NoDup.
  - by apply (list_elem_of_fmap_2 (λ name, (name, false))).
Qed.

(** X12.  However [loadState] goes, the variable [state] holds a state
    afterwards, and that state is valid: its roster is the configured one up
    to order, every participant has a flag, and its assignments pass
    [validateAssignments].  A file that [isValidState] accepts is taken over
    as it is, normalized, with nothing drawn anew; in every other case the
    state is a fresh one. *)
Theorem loadState_valid file random random' now now' saveOk saveOk' state :
  ∃ state',
    (loadState file random random' now now' saveOk saveOk' state).1
    = Some state'
    ∧ stateValid state'
    ∧ match file with
      | WellFormed candidate =>
          if isValidState candidate
          then state' = normalizeState candidate now
          else buildFreshState random now = inl state'
               ∨ buildFreshState random' now' = inl state'
      | _ =>
          buildFreshState random now = inl state'
          ∨ buildFreshState random' now' = inl state'
      end.
Proof.
  destruct (resetState_fresh random now saveOk state)
    as (fresh & Hfresh & Hreset).
  assert (Htwice :
    ∃ state',
      (let '(state1, returned) := resetState random now saveOk state in
       if returned then (state1, true)
       else resetState random' now' saveOk' state1).1 = Some state'
      ∧ stateValid state'
      ∧ (buildFreshState random now = inl state'
         ∨ buildFreshState random' now' = inl state')).
  { rewrite Hreset. destruct saveOk.
    - exists fresh. split_and!; [done| |by left].
      by eapply buildFreshState_stateValid.
    - destruct (resetState_fresh random' now' saveOk' (Some fresh))
        as (fresh' & Hfresh' & ->).
      exists fresh'. split_and!; [done| |by right].
      by eapply buildFreshState_stateValid. }
  unfold loadState. destruct file as [| |candidate].
  - rewrite Hreset. exists fresh. split_and!; [done| |by left].
    by eapply buildFreshState_stateValid.
  - done.
  - destruct (isValidState candidate) eqn:Hvalid; cbn [negb];
      [|exact Htwice].
    exists (normalizeState candidate now). split_and!; [done| |done].
    by apply normalizeState_stateValid.
Qed.

Section DrawPaths.

Context (trim : string → string).

(** The ways through the handler of /api/draw: the draw is recorded and
    saved; it is recorded and taken back because saving fails; or the
    request is turned down before anything is recorded. *)
Lemma handleDraw_paths state method body now saveOk :
  (∃ s recipient,
      method = "POST" ∧ body = Resolved (Some s)
      ∧ trim s ≠ EmptyString
      ∧ trim s ∈ participants state
      ∧ revealed state !! trim s ≠ Some true
      ∧ assignments state !! trim s = Some recipient
      ∧ recipient ≠ EmptyString
      ∧ handleDraw trim state method body now saveOk
        = if saveOk
          then (recordDraw state (trim s) recipient now,
                Some (sendJson 200
                        (DrawJson (trim s) recipient
                           (length (getAvailableGivers
                                      (recordDraw state (trim s) recipient
                                         now)))
                           (length (participants state)))))
          else ({| participants := participants state;
                   exclusions := exclusions state;
                   assignments := assignments state;
                   revealed := <[trim s:=false]>
                                 (<[trim s:=true]> (revealed state));
                   history := removelast
                                (history state
                                 ++ [{| entryGiver := trim s;
                                        entryRecipient := recipient;
                                        revealedAt := now |}]);
                   createdAt := createdAt state |},
                Some (sendJson 500
                        (ErrorJson
                           "Could not save the draw. Please try again."))))
  ∨ (∃ response,
        handleDraw trim state method body now saveOk = (state, response)
        ∧ ∀ r, response = Some r → status r ≠ 200).
Proof.
  unfold handleDraw.
  case_bool_decide as Hoptions.
  { right. eexists. split; [done|]. intros r [= <-]. simpl. lia. }
  case_bool_decide as Hpost; simpl.
  2: { right. eexists. split; [done|]. intros r [= <-]. simpl. lia. }
  destruct body as [err| |[s|]].
  - right. eexists. split; [done|]. intros r [= <-]. simpl.
    case_bool_decide; [lia|]. destruct err; simpl; lia.
  - right. eexists. split; [done|]. by intros r.
  - case_bool_decide as Hgiver.
    { right. eexists. split; [done|]. intros r [= <-]. simpl. lia. }
    case_bool_decide as Hin; simpl.
    2: { right. eexists. split; [done|]. intros r [= <-]. simpl. lia. }
    case_bool_decide as Hrevealed.
    { right. eexists. split; [done|]. intros r [= <-]. simpl. lia. }
    destruct (assignments state !! trim s) as [recipient|] eqn:Hrecipient.
    2: { right. eexists. split; [done|]. intros r [= <-]. simpl. lia. }
    unfold truthy. case_bool_decide as Hempty; simpl.
    { right. eexists. split; [done|]. intros r [= <-]. simpl. lia. }
    left. exists s, recipient. split_and!; try done.
  - rewrite bool_decide_eq_true_2 by done.
    right. eexists. split; [done|]. intros r [= <-]. simpl. lia.
Qed.

End DrawPaths.

Section ValidStates.

Lemma stateValid_roster state :
  stateValid state →
  NoDup (participants state) ∧ EmptyString ∉ participants state.
Proof.
  intros (_ & _ & Hvalid). apply validateAssignments_spec in Hvalid. tauto.
Qed.

(** In a valid state every participant has a recipient: another participant,
    with a name, whom they do not exclude. *)
Lemma stateValid_recipient state giver :
  stateValid state →
  giver ∈ participants state →
  ∃ recipient,
    assignments state !! giver = Some recipient
    ∧ recipient ≠ EmptyString
    ∧ recipient ∈ participants state
    ∧ recipient ≠ giver
    ∧ recipient ∉ default [] (exclusions state !! giver).
Proof.
  intros (_ & _ & Hvalid) Hgiver.
  apply validateAssignments_true in Hvalid as (recvs & Hall & _).
  destruct (Forall2_pairOk_lookup _ _ _ _ _ _ Hall Hgiver)
    as (r & _ & Hr & Hne & Hin & Hself & Hban%not_banned_iff).
  exists r. split_and!; [done..| |]; tauto.
Qed.


Lemma handleReset_state state method random now saveOk :
  (handleReset state method random now saveOk).1 = state
  ∨ ∃ fresh, buildFreshState random now = inl fresh
             ∧ (handleReset state method random now saveOk).1 = fresh.
Proof.
  unfold handleReset.
  case_bool_decide; [by left|]. case_bool_decide; cbn [negb]; [|by left].
  destruct (resetState_fresh random now saveOk (Some state))
    as (fresh & Hfresh & ->).
  right. exists fresh. split; [done|]. by destruct saveOk.
Qed.

End ValidStates.

Section Draws.

Context (trim : string → string).

Lemma handleDraw_stateValid state method body now saveOk :
  stateValid state →
  stateValid (handleDraw trim state method body now saveOk).1.
Proof.
  intros (Hok & Hperm & Hvalid).
  destruct (handleDraw_frame trim state method body now saveOk)
    as (Hp & He & Ha & _).
  split; [by apply handleDraw_ok|]. by rewrite Hp, He, Ha.
Qed.

(** X13.  The handlers keep the state valid: after a request to /api/draw
    or /api/reset, whatever its outcome, the roster is still the configured
    one up to order, every participant has a flag, and the assignments pass
    [validateAssignments]. *)
Theorem handlers_keep_state_valid state method body random now saveOk :
  stateValid state →
  stateValid (handleDraw trim state method body now saveOk).1
  ∧ stateValid (handleReset state method random now saveOk).1.
Proof.
  intros Hvalid. split; [by apply handleDraw_stateValid|].
  destruct (handleReset_state state method random now saveOk)
    as [->|(fresh & Hfresh & ->)]; [done|].
  by eapply buildFreshState_stateValid.
Qed.

Lemma handleDraw_participant state s now :
  stateValid state →
  trim s ∈ participants state →
  revealed state !! trim s ≠ Some true →
  ∃ recipient,
    handleDraw trim state "POST" (Resolved (Some s)) now true
    = (recordDraw state (trim s) recipient now,
       Some (sendJson 200
               (DrawJson (trim s) recipient
                  (length (getAvailableGivers
                             (recordDraw state (trim s) recipient now)))
                  (length (participants state)))))
    ∧ assignments state !! trim s = Some recipient
    ∧ recipient ∈ participants state
    ∧ recipient ≠ trim s
    ∧ recipient ∉ default [] (exclusions state !! trim s).
Proof.
  intros Hvalid Hin Hnot.
  destruct (stateValid_recipient state (trim s) Hvalid Hin)
    as (recipient & Hr & Hne & Hrin & Hself & Hex).
  destruct (stateValid_roster state Hvalid) as [_ Hnamed].
  exists recipient. split_and!; [|done..].
  destruct (handleDraw_paths trim state "POST" (Resolved (Some s)) now true)
    as [(s' & r' & _ & [= <-] & _ & _ & _ & Hr' & _ & ->)
       |(response & Hturned & _)].
  - by simplify_eq.
  - exfalso. revert Hturned. unfold handleDraw.
    rewrite (bool_decide_eq_false_2 ("POST" = "OPTIONS")) by done.
    rewrite (bool_decide_eq_true_2 ("POST" = "POST")) by done. simpl.
    rewrite bool_decide_eq_false_2 by by intros Heq; rewrite Heq in Hin.
    rewrite (bool_decide_eq_true_2 (trim s ∈ participants state)) by done.
    simpl. rewrite bool_decide_eq_false_2 by done. rewrite Hr.
    unfold truthy. rewrite bool_decide_eq_false_2 by done. simpl.
    intros [= Hstate _]. apply (f_equal history) in Hstate. simpl in Hstate.
    apply (f_equal length) in Hstate. rewrite length_app in Hstate.
    simpl in Hstate. lia.
Qed.

(** X14.  In a valid state the draw of a participant who has not drawn yet
    goes through when the state can be saved: the answer has status 200 and
    discloses the recipient the assignments hold for the giver, who is
    another participant and not one the giver excludes.  The answer
    'No assignment found' cannot come. *)
Theorem draw_of_participant_succeeds state s now :
  stateValid state →
  trim s ∈ participants state →
  revealed state !! trim s ≠ Some true →
  ∃ recipient,
    handleDraw trim state "POST" (Resolved (Some s)) now true
    = (recordDraw state (trim s) recipient now,
       Some (sendJson 200
               (DrawJson (trim s) recipient
                  (length (getAvailableGivers
                             (recordDraw state (trim s) recipient now)))
                  (length (participants state)))))
    ∧ assignments state !! trim s = Some recipient
    ∧ recipient ∈ participants state
    ∧ recipient ≠ trim s
    ∧ recipient ∉ default [] (exclusions state !! trim s).
Proof. apply handleDraw_participant. Qed.

End Draws.

Lemma handlers_keep_state_valid_witness :
  stateValid
    (handleDraw (λ s, s) exampleState "POST" (Resolved (Some "Alice"))
       "2024-12-24T18:00:00.000Z" true).1
  ∧ stateValid
      (handleReset exampleState "POST" (λ k, k)
         "2024-12-24T18:00:00.000Z" true).1.
Proof.
  apply (handlers_keep_state_valid (λ s, s)).
  exact (buildFreshState_stateValid _ _ _ exampleState_fresh).
Defined.

Lemma draw_of_participant_succeeds_witness :
  ∃ recipient,
    handleDraw (λ s, s) exampleState "POST" (Resolved (Some "Alice"))
      "2024-12-24T18:00:00.000Z" true
    = (recordDraw exampleState "Alice" recipient "2024-12-24T18:00:00.000Z",
       Some (sendJson 200
               (DrawJson "Alice" recipient
                  (length (getAvailableGivers
                             (recordDraw exampleState "Alice" recipient
                                "2024-12-24T18:00:00.000Z")))
                  (length (participants exampleState)))))
    ∧ assignments exampleState !! "Alice" = Some recipient
    ∧ recipient ∈ participants exampleState
    ∧ recipient ≠ "Alice"
    ∧ recipient ∉ default [] (exclusions exampleState !! "Alice").
Proof.
  apply (draw_of_participant_succeeds (λ s, s) exampleState "Alice").
  - exact (buildFreshState_stateValid _ _ _ exampleState_fresh).
  - apply (bool_decide_unpack _). vm_compute. exact I.
  - vm_compute. discriminate.
Defined.

Section DrawSequences.

Context (trim : string → string).




Lemma filter_agree (P Q : string → Prop)
    `{∀ x, Decision (P x), ∀ x, Decision (Q x)} (l : list string) :
  (∀ x, x ∈ l → P x ↔ Q x) → filter P l = filter Q l.
Proof.
  induction l as [|x l IH]; intros Hagree; [done|].
  rewrite !filter_cons, IH by (intros y Hy; apply Hagree; by right).
  assert (P x ↔ Q x) by (apply Hagree; by left).
  repeat case_decide; tauto.
Qed.

Lemma filter_without (P Q : string → Prop)
    `{∀ x, Decision (P x), ∀ x, Decision (Q x)} (l : list string) g :
  NoDup l → g ∈ l → P g → ¬ Q g →
  (∀ x, x ≠ g → P x ↔ Q x) →
  length (filter P l) = S (length (filter Q l)).
Proof.
  intros Hnd Hg HP HQ Hagree.
  induction l as [|x l IH]; [by apply elem_of_nil in Hg|].
  apply NoDup_cons in Hnd as [Hx Hnd]. rewrite !filter_cons.
  destruct (decide (x = g)) as [->|Hne].
  - rewrite decide_True, decide_False by done. simpl. f_equal. f_equal.
    apply filter_agree. intros y Hy. apply Hagree. by intros ->.
  - apply elem_of_cons in Hg as [->|Hg]; [done|].
    specialize (IH Hnd Hg). pose proof (Hagree x Hne).
    repeat case_decide; simpl; try tauto; by rewrite IH.
Qed.


End DrawSequences.



Section EverybodyDraws.

Context (trim : string → string).

Lemma omap_Some (l : list string) : omap id (Some <$> l) = l.
Proof. induction l as [|x l IH]; csimpl; [done|by f_equal]. Qed.

Lemma filter_none (P : string → Prop) `{∀ x, Decision (P x)}
    (l : list string) :
  (∀ x, x ∈ l → ¬ P x) → filter P l = [].
Proof.
  induction l as [|x l IH]; intros Hnone; [done|].
  rewrite filter_cons_False by (apply Hnone; by left).
  apply IH. intros y Hy. apply Hnone. by right.
Qed.

(** What a run of draws by different participants, none of whom has drawn
    before, leaves behind. *)
Lemma drawAll_spec state requests :
  stateValid state →
  NoDup ((λ request, trim request.1) <$> requests) →
  (∀ g, g ∈ (λ request, trim request.1) <$> requests →
        g ∈ participants state ∧ revealed state !! g ≠ Some true) →
  ∃ entries,
    history (drawAll trim state requests) = (history state ++ entries)%list
    ∧ entryGiver <$> entries = (λ request, trim request.1) <$> requests
    ∧ Forall (λ entry, assignments state !! entryGiver entry
                       = Some (entryRecipient entry)) entries
    ∧ participants (drawAll trim state requests) = participants state
    ∧ assignments (drawAll trim state requests) = assignments state
    ∧ ∀ p, revealed (drawAll trim state requests) !! p
           = if decide (p ∈ (λ request, trim request.1) <$> requests)
             then Some true else revealed state !! p.
Proof.
  revert state.
  induction requests as [|[s now] requests IH]; intros state Hvalid Hnd Hgivers.
  - exists []. split_and!; [by rewrite (right_id_L [] (++))|done..|].
    intros p. by rewrite decide_False by apply not_elem_of_nil.
  - rewrite fmap_cons in Hnd, Hgivers. cbn [fst] in *.
    apply NoDup_cons in Hnd as [Hfirst Hnd].
    destruct (Hgivers (trim s)) as [Hin Hnot]; [by left|].
    destruct (handleDraw_participant trim state s now Hvalid Hin Hnot)
      as (recipient & Hdraw & Hrecipient & _).
    cbn [drawAll]. rewrite Hdraw. cbn [fst].
    destruct (IH (recordDraw state (trim s) recipient now))
      as (entries & Hhistory & Hentries & Hall & Hp & Ha & Hflags).
    + pose proof (handleDraw_stateValid trim state "POST"
                    (Resolved (Some s)) now true Hvalid) as Hvalid'.
      by rewrite Hdraw in Hvalid'.
    + done.
    + intros g Hg. destruct (Hgivers g) as [Hgin Hgnot]; [by right|].
      split; [done|]. cbn [revealed recordDraw].
      rewrite lookup_insert_ne; [done|].
      intros Heq. apply Hfirst. by rewrite Heq.
    + exists ({| entryGiver := trim s; entryRecipient := recipient;
                 revealedAt := now |} :: entries).
      rewrite Hhistory, Hp, Ha. cbn [history recordDraw participants assignments].
      split_and!; [by rewrite <-(assoc_L (++))|by rewrite !fmap_cons, Hentries
                  |by constructor|done..|].
      intros p. rewrite Hflags. cbn [revealed recordDraw].
      rewrite fmap_cons. cbn [fst].
      destruct (decide (p = trim s)) as [->|Hne].
      * rewrite (decide_True (P := trim s ∈ trim s :: _)) by by left.
        case_decide; [done|apply lookup_insert_eq].
      * rewrite lookup_insert_ne by done.
        case_decide as Hrest.
        -- by rewrite decide_True by by right.
        -- rewrite decide_False; [done|].
           rewrite elem_of_cons. naive_solver.
Qed.

End EverybodyDraws.

(** X22.  When every participant draws once, in any order, from a valid
    state in which nobody has drawn yet and every draw is saved, then
    nobody is left to draw, the history lists the givers in the order of
    their requests, and the recipients disclosed are the participants
    again, each one once: everybody gives one gift and receives one. *)
Theorem everybody_draws_once trim state requests :
  stateValid state →
  history state = [] →
  (∀ p, p ∈ participants state → revealed state !! p ≠ Some true) →
  (λ request, trim request.1) <$> requests ≡ₚ participants state →
  getAvailableGivers (drawAll trim state requests) = []
  ∧ entryGiver <$> history (drawAll trim state requests)
    = (λ request, trim request.1) <$> requests
  ∧ entryRecipient <$> history (drawAll trim state requests)
    ≡ₚ participants state
  ∧ assignments (drawAll trim state requests) = assignments state.
Proof.
  intros Hvalid Hhistory Hnobody Hperm.
  destruct (stateValid_roster state Hvalid) as [Hnd _].
  destruct (drawAll_spec trim state requests Hvalid)
    as (entries & Hfinal & Hgivers & Hall & Hp & Ha & Hflags).
  { by rewrite Hperm. }
  { intros g Hg. rewrite Hperm in Hg. by split; [|apply Hnobody]. }
  rewrite Hhistory in Hfinal. cbn [app] in Hfinal. rewrite Hfinal.
  split_and!; [|done| |done].
  - unfold getAvailableGivers. apply filter_none. intros p Hin Hflag.
    apply Hflag. rewrite Hflags, decide_True; [done|].
    rewrite Hperm. by rewrite Hp in Hin.
  - assert (Hrecipients :
      Some <$> (entryRecipient <$> entries)
      = (λ p, assignments state !! p) <$> (entryGiver <$> entries)).
    { clear Hfinal Hgivers. induction Hall as [|entry entries He _ IH];
        [done|]. by rewrite !fmap_cons, He, IH. }
    destruct Hvalid as (_ & _ & (_ & _ & Hassigned & _)%validateAssignments_spec).
    rewrite <-(omap_Some (entryRecipient <$> entries)), Hrecipients, Hgivers.
    by rewrite Hperm, Hassigned, omap_Some.
Qed.

Lemma everybody_draws_once_witness :
  let requests :=
    [("Frank", "2024-12-24T18:00:00.000Z");
     ("Alice", "2024-12-24T18:01:00.000Z");
     ("Erin", "2024-12-24T18:02:00.000Z");
     ("Bob", "2024-12-24T18:03:00.000Z");
     ("Danielle", "2024-12-24T18:04:00.000Z");
     ("Charlie", "2024-12-24T18:05:00.000Z")] in
  getAvailableGivers (drawAll (λ s, s) exampleState requests) = []
  ∧ entryGiver <$> history (drawAll (λ s, s) exampleState requests)
    = (λ request, request.1) <$> requests
  ∧ entryRecipient <$> history (drawAll (λ s, s) exampleState requests)
    ≡ₚ participants exampleState
  ∧ assignments (drawAll (λ s, s) exampleState requests)
    = assignments exampleState.
Proof.
  apply (everybody_draws_once (λ s, s) exampleState).
  - exact (buildFreshState_stateValid _ _ _ exampleState_fresh).
  - reflexivity.
  - intros p Hp. vm_compute in Hp.
    repeat (apply elem_of_cons in Hp as [->|Hp]); try (vm_compute; discriminate).
    by apply elem_of_nil in Hp.
  - apply (bool_decide_unpack _). vm_compute. exact I.
Defined.

(** * Names of inherited members *)

Section ReadsOfExclusions.



End ReadsOfExclusions.


(** The generator of the server is not concerned: its roster has no such
    name, and a roster without such names is shuffled into one. *)
Lemma PARTICIPANTS_plain : plainNames PARTICIPANTS.
Proof. unfold plainNames. apply (bool_decide_unpack _). vm_compute. exact I. Qed.

Lemma plainNames_Permutation names shuffled :
  shuffled ≡ₚ names → plainNames names → plainNames shuffled.
Proof. intros Hperm. unfold plainNames. by rewrite Hperm. Qed.

(** With a giver of such a name and no exclusions, the set cannot be
    built. *)
Lemma bannedSetJs_constructor : bannedSetJs ∅ "constructor" = None.
Proof. by vm_compute. Qed.

(** * The parts of the handlers around the saving of the state *)

Section HandlerSteps.

Context (trim : string → string).

(** The ways through the first part of the handler of /api/draw. *)
Lemma drawBegin_paths state method body now :
  (∃ s recipient,
      method = "POST" ∧ body = Resolved (Some s)
      ∧ trim s ≠ EmptyString
      ∧ trim s ∈ participants state
      ∧ revealed state !! trim s ≠ Some true
      ∧ assignments state !! trim s = Some recipient
      ∧ recipient ≠ EmptyString
      ∧ drawBegin trim state method body now
        = (recordDraw state (trim s) recipient now,
           inr {| pendingGiver := trim s; pendingRecipient := recipient |}))
  ∨ (∃ response, drawBegin trim state method body now = (state, inl response)).
Proof.
  unfold drawBegin.
  case_bool_decide as Hoptions; [right; by eexists|].
  case_bool_decide as Hpost; cbn [negb]; [|right; by eexists].
  destruct body as [err| |[s|]]; [right; by eexists..| |].
  - case_bool_decide as Hgiver; [right; by eexists|].
    case_bool_decide as Hin; cbn [negb]; [|right; by eexists].
    case_bool_decide as Hrevealed; [right; by eexists|].
    destruct (assignments state !! trim s) as [recipient|] eqn:Hrecipient;
      [|right; by eexists].
    unfold truthy. case_bool_decide as Hempty; cbn [negb];
      [right; by eexists|].
    left. exists s, recipient. by split_and!.
  - rewrite bool_decide_eq_true_2 by done. right. by eexists.
Qed.

(** [handleDraw] is the first part of the handler followed at once by the
    second: the handling of a request during which no other request is
    handled. *)
Lemma handleDraw_steps state method body now saveOk :
  handleDraw trim state method body now saveOk
  = match drawBegin trim state method body now with
    | (state', inl response) => (state', response)
    | (state', inr pending) =>
        ((drawEnd state' pending saveOk).1,
         Some (drawEnd state' pending saveOk).2)
    end.
Proof.
  unfold handleDraw, drawBegin, drawEnd.
  case_bool_decide as Hoptions; [done|].
  case_bool_decide as Hpost; cbn [negb]; [|done].
  destruct body as [err| |[s|]]; [done..| |].
  - case_bool_decide as Hgiver; [done|].
    case_bool_decide as Hin; cbn [negb]; [|done].
    case_bool_decide as Hrevealed; [done|].
    destruct (assignments state !! trim s) as [recipient|]; [|done].
    destruct (negb (truthy (Some recipient))); [done|].
    by destruct saveOk.
  - by rewrite bool_decide_eq_true_2.
Qed.

End HandlerSteps.

(** [handleReset] is the first part of the handler followed at once by the
    second. *)
Lemma handleReset_steps state method random now saveOk :
  handleReset state method random now saveOk
  = match resetBegin state method random now with
    | (state', Some response) => (state', inl response)
    | (state', None) => (state', resetEnd state' saveOk)
    end.
Proof.
  unfold handleReset, resetBegin, resetEnd, resetState.
  case_bool_decide as Hoptions; [done|].
  case_bool_decide as Hpost; cbn [negb]; [|done].
  destruct (buildFreshState random now) as [fresh|message]; [|done].
  by destruct saveOk.
Qed.

Section DrawSteps.

Context (trim : string → string).

(** X16.  A request to /api/draw that is answered before the state is saved
    (wrong method, unreadable body, missing or unknown giver, giver who has
    drawn already, no assignment) leaves a valid state of the server as it
    is. *)
Theorem turned_down_draw_keeps_state state method body now response :
  stateValid state →
  (drawBegin trim state method body now).2 = inl response →
  (drawBegin trim state method body now).1 = state.
Proof.
  intros _.
  destruct (drawBegin_paths trim state method body now)
    as [(s & r & _ & _ & _ & _ & _ & _ & _ & ->)|(resp & ->)]; [|done].
  intros [=].
Qed.

(** X17.  Recording a draw takes exactly the giver off the list of those
    still to draw, and the answer to the draw reports the number of those
    still to draw at the time the state has been saved. *)
Theorem recorded_draw_takes_giver_off state method body now state' pending :
  stateValid state →
  drawBegin trim state method body now = (state', inr pending) →
  pendingGiver pending ∈ getAvailableGivers state
  ∧ (pendingGiver pending ∉ getAvailableGivers state')
  ∧ length (getAvailableGivers state) = S (length (getAvailableGivers state'))
  ∧ assignments state !! pendingGiver pending = Some (pendingRecipient pending)
  ∧ ∀ saved,
      drawEnd saved pending true
      = (saved,
         sendJson 200
           (DrawJson (pendingGiver pending) (pendingRecipient pending)
              (length (getAvailableGivers saved))
              (length (participants saved)))).
Proof.
  intros Hvalid Hbegin.
  destruct (stateValid_roster state Hvalid) as [Hnd _].
  destruct (drawBegin_paths trim state method body now)
    as [(s & r & _ & _ & Hne & Hin & Hnot & Hr & _ & Hrun)|(resp & Hrun)];
    rewrite Hrun in Hbegin; simplify_eq; cbn [pendingGiver pendingRecipient].
  split_and!; [| | |done|done].
  - by apply list_elem_of_filter.
  - intros [Hflag _]%list_elem_of_filter. apply Hflag.
    cbn [revealed recordDraw]. apply lookup_insert_eq.
  - unfold getAvailableGivers. cbn [participants revealed recordDraw].
    apply filter_without with (g := trim s); [done..| |].
    + intros Hflag. apply Hflag, lookup_insert_eq.
    + intros x Hx. by rewrite lookup_insert_ne.
Qed.

(** X20.  In a valid state, recording a draw and answering a draw whose save
    went through keep the history in agreement with the flags and the
    assignments: every entry names a giver whose flag is set and the
    recipient the assignments hold for that giver. *)
Theorem draw_steps_keep_history state method body now pending :
  stateValid state →
  historyOk state →
  historyOk (drawBegin trim state method body now).1
  ∧ historyOk (drawEnd state pending true).1.
Proof.
  intros _ Hhistory. split; [|done].
  destruct (drawBegin_paths trim state method body now)
    as [(s & r & _ & _ & _ & _ & _ & Hr & _ & ->)|(resp & ->)]; [|done].
  intros entry. cbn [fst recordDraw history revealed assignments].
  intros [Hold| ->%list_elem_of_singleton]%elem_of_app.
  - destruct (Hhistory entry Hold) as [Hflag Hrecipient].
    split; [|done].
    destruct (decide (trim s = entryGiver entry)) as [<-|?];
      [apply lookup_insert_eq|by rewrite lookup_insert_ne].
  - split; [apply lookup_insert_eq|done].
Qed.

(** X23.  When the save of a draw fails and the state is still the one the
    draw was recorded in, the handler puts the state back to what it was
    before the request and answers with status 500. *)
Theorem failed_save_rolls_back state method body now state' pending :
  stateOk state →
  drawBegin trim state method body now = (state', inr pending) →
  drawEnd state' pending false
  = (state,
     sendJson 500 (ErrorJson "Could not save the draw. Please try again.")).
Proof.
  intros Hok Hbegin.
  destruct (drawBegin_paths trim state method body now)
    as [(s & r & _ & _ & _ & Hin & Hnot & _ & _ & Hrun)|(resp & Hrun)];
    rewrite Hrun in Hbegin; simplify_eq.
  unfold drawEnd, recordDraw. cbn [pendingGiver participants exclusions
    assignments revealed history createdAt].
  destruct (Hok (trim s) Hin) as [flag Hflag].
  assert (flag = false) as -> by (destruct flag; congruence).
  rewrite insert_insert_eq, (insert_id _ _ _ Hflag), removelast_last.
  by destruct state.
Qed.

(** X24.  Each part of the handlers keeps the state valid, also when parts
    of different requests alternate: after a draw has been recorded, after
    its save has been answered (the draw undone or not, in whatever state
    the server is by then) and after a reset has replaced the state, the
    roster is still the configured one up to order, every participant has a
    flag, and the assignments pass [validateAssignments]. *)
Theorem handler_steps_keep_state_valid
    state method body random now pending saveOk :
  stateValid state →
  stateValid (drawBegin trim state method body now).1
  ∧ stateValid (drawEnd state pending saveOk).1
  ∧ stateValid (resetBegin state method random now).1.
Proof.
  intros Hstate. pose proof Hstate as (Hok & Hperm & Hvalid). split_and!.
  - destruct (drawBegin_paths trim state method body now)
      as [(s & r & _ & _ & _ & _ & _ & _ & _ & ->)|(resp & ->)]; [|done].
    by apply recordDraw_stateValid.
  - unfold drawEnd. destruct saveOk; [done|].
    split; [|done]. intros name Hname.
    cbn [fst revealed participants] in *.
    destruct (decide (pendingGiver pending = name)) as [->|?];
      [by rewrite lookup_insert_eq|by rewrite lookup_insert_ne; auto].
  - unfold resetBegin.
    case_bool_decide; [done|]. case_bool_decide; cbn [negb]; [|done].
    destruct (buildFreshState random now) as [fresh|message] eqn:Hfresh;
      [|done].
    by eapply buildFreshState_stateValid.
Qed.

End DrawSteps.

(** X19.  A POST to /api/reset replaces the state by a freshly built one, in
    which nobody has drawn and the history is empty, before the save is
    awaited and for every random source; a request with another method
    leaves the state as it is.  The answer follows the save: status 500 when
    it fails, the state staying replaced; otherwise status 200 with the
    number of those still to draw in the state at that time, which is the
    whole roster when the state is still the fresh one. *)
Theorem reset_replaces_state_before_save state method random now :
  (if bool_decide (method = "POST")
   then ∃ fresh,
          buildFreshState random now = inl fresh
          ∧ resetBegin state method random now = (fresh, None)
          ∧ history fresh = []
          ∧ getAvailableGivers fresh = participants fresh
          ∧ resetEnd fresh true
            = inr {| resetMessage := "Secret Santa assignments reset.";
                     resetRemaining := length PARTICIPANTS;
                     resetTotal := length PARTICIPANTS |}
   else ∃ response,
          resetBegin state method random now = (state, Some response))
  ∧ ∀ saved,
      resetEnd saved true
      = inr {| resetMessage := "Secret Santa assignments reset.";
               resetRemaining := length (getAvailableGivers saved);
               resetTotal := length (participants saved) |}
      ∧ resetEnd saved false
        = inl (sendJson 500 (ErrorJson "Internal server error")).
Proof.
  split; [|done]. unfold resetBegin. case_bool_decide as Hpost.
  - subst. rewrite (bool_decide_eq_false_2 ("POST" = "OPTIONS")) by done.
    cbn [negb].
    destruct (buildFreshState_inl random now) as (mapping & Hfresh & _).
    eexists. rewrite Hfresh. by split_and!.
  - case_bool_decide; by eexists.
Qed.

Lemma turned_down_draw_keeps_state_witness :
  (drawBegin (λ s, s) exampleState "POST" (Resolved (Some "Zoe"))
     "2024-12-24T18:00:00.000Z").1
  = exampleState.
Proof.
  apply (turned_down_draw_keeps_state (λ s, s) exampleState "POST"
           (Resolved (Some "Zoe")) "2024-12-24T18:00:00.000Z"
           (Some (sendJson 404
                    (ErrorJson "That name is not in the participant list.")))).
  - exact (buildFreshState_stateValid _ _ _ exampleState_fresh).
  - reflexivity.
Defined.

Lemma recorded_draw_takes_giver_off_witness :
  let recorded :=
    recordDraw exampleState "Alice" "Bob" "2024-12-24T18:00:00.000Z" in
  "Alice" ∈ getAvailableGivers exampleState
  ∧ ("Alice" ∉ getAvailableGivers recorded)
  ∧ length (getAvailableGivers exampleState)
    = S (length (getAvailableGivers recorded))
  ∧ assignments exampleState !! "Alice" = Some "Bob"
  ∧ ∀ saved,
      drawEnd saved {| pendingGiver := "Alice"; pendingRecipient := "Bob" |}
        true
      = (saved,
         sendJson 200
           (DrawJson "Alice" "Bob" (length (getAvailableGivers saved))
              (length (participants saved)))).
Proof.
  apply (recorded_draw_takes_giver_off (λ s, s) exampleState "POST"
           (Resolved (Some "Alice")) "2024-12-24T18:00:00.000Z" _
           {| pendingGiver := "Alice"; pendingRecipient := "Bob" |}).
  - exact (buildFreshState_stateValid _ _ _ exampleState_fresh).
  - reflexivity.
Defined.

Lemma draw_steps_keep_history_witness :
  let recorded :=
    recordDraw exampleState "Alice" "Bob" "2024-12-24T18:00:00.000Z" in
  historyOk
    (drawBegin (λ s, s) recorded "POST" (Resolved (Some "Bob"))
       "2024-12-24T18:00:01.000Z").1
  ∧ historyOk
      (drawEnd recorded
         {| pendingGiver := "Alice"; pendingRecipient := "Bob" |} true).1.
Proof.
  apply (draw_steps_keep_history (λ s, s)
           (recordDraw exampleState "Alice" "Bob" "2024-12-24T18:00:00.000Z")
           "POST" (Resolved (Some "Bob")) "2024-12-24T18:00:01.000Z"
           {| pendingGiver := "Alice"; pendingRecipient := "Bob" |}).
  - apply recordDraw_stateValid.
    exact (buildFreshState_stateValid _ _ _ exampleState_fresh).
  - intros entry ->%list_elem_of_singleton. split; reflexivity.
Defined.

Lemma failed_save_rolls_back_witness :
  drawEnd (recordDraw exampleState "Alice" "Bob" "2024-12-24T18:00:00.000Z")
    {| pendingGiver := "Alice"; pendingRecipient := "Bob" |} false
  = (exampleState,
     sendJson 500 (ErrorJson "Could not save the draw. Please try again.")).
Proof.
  apply (failed_save_rolls_back (λ s, s) exampleState "POST"
           (Resolved (Some "Alice")) "2024-12-24T18:00:00.000Z").
  - exact (buildFreshState_ok _ _ _ exampleState_fresh).
  - reflexivity.
Defined.

Lemma handler_steps_keep_state_valid_witness :
  stateValid
    (drawBegin (λ s, s) exampleState "POST" (Resolved (Some "Alice"))
       "2024-12-24T18:00:00.000Z").1
  ∧ stateValid
      (drawEnd exampleState
         {| pendingGiver := "Bob"; pendingRecipient := "Charlie" |} false).1
  ∧ stateValid
      (resetBegin exampleState "POST" (λ k, k) "2024-12-25T09:00:00.000Z").1.
Proof.
  apply (handler_steps_keep_state_valid (λ s, s) exampleState "POST"
           (Resolved (Some "Alice")) (λ k, k) "2024-12-25T09:00:00.000Z"
           {| pendingGiver := "Bob"; pendingRecipient := "Charlie" |} false).
  exact (buildFreshState_stateValid _ _ _ exampleState_fresh).
Defined.
